(** * trpc::mysql::MysqlExecutor — prepared-statement execution layer

    A shallow embedding of [trpc/client/mysql/mysql_executor.h]: the result
    holder [MysqlResults], the two public operations [QueryAll] and [Execute]
    with their [MysqlResults] overloads, and the fetch loop [FetchResults].

    The executor talks to the server through the MySQL C API.  A call is
    modelled as a computation over a [machine]: the log of protocol
    operations issued so far, the buffers the bind descriptors point into,
    and the caller's result object.  What the server answers is fixed by a
    [MYSQL] record, so that every property is stated for all answers. *)

From Stdlib Require Import ZArith Lia Bool.
From Stdlib Require Import Strings.Byte.
From stdpp Require Import base list strings.

Local Open Scope Z_scope.

(** ** Integer types of the source *)

(** [size_t] and [my_ulonglong] are 64-bit unsigned, [int] is 32-bit signed. *)
Definition size_t (z : Z) : Z := z mod 2 ^ 64.

Definition int (z : Z) : Z := (z + 2 ^ 31) mod 2 ^ 32 - 2 ^ 31.

(** ** Declared types of columns and arguments *)

(** Template arguments.  [OnlyExec] is the marker class of the header; the
    bindable types are declared in [mysql_binder.h], which is not part of
    the sources at hand, so they are kept as the categories a binder
    supports: fixed-width integers, floating point, boolean, text and
    date/time.  A fixed-width category carries the native width, in bytes,
    of the declared type. *)
Inductive cpp_type :=
  | OnlyExec
  | Integer (width : nat) (is_unsigned : bool)
  | Floating (width : nat)
  | Boolean
  | Text
  | DateTime (width : nat).

#[global] Instance cpp_type_eq_dec : EqDecision cpp_type.
Proof. solve_decision. Defined.

(** A typed value: the declared type together with the bytes of its wire
    representation. *)
Record value := Value { value_type : cpp_type; value_bytes : list byte }.

(** One element of [std::tuple<OutputArgs...>] per declared output type. *)
Abbreviation row := (list value).

(** ** MysqlResults *)

(** [is_only_exec] is
    [std::is_same_v<std::tuple<Args...>, std::tuple<OnlyExec>>]. *)
Definition is_only_exec (Args : list cpp_type) : bool :=
  bool_decide (Args = [OnlyExec]).

Record MysqlResults := {
  result_set : list row;
  null_flags : list (list Z);
  error_message : string;
  affected_rows : Z
}.

(** The constructor initialises [affected_rows] to 0; the other members
    are default-constructed. *)
Definition MysqlResults_new : MysqlResults :=
  {| result_set := []; null_flags := []; error_message := ""; affected_rows := 0 |}.

(** ** The C API as seen by the executor *)

Definition MYSQL_NO_DATA : Z := 100.
Definition MYSQL_DATA_TRUNCATED : Z := 101.

(** Where a bind descriptor points. The buffers are the local vectors of
    [QueryAll]; input descriptors point at the caller's arguments. *)
Inductive pointer :=
  | nullptr
  | output_buffer_at (i : nat)
  | output_length_at (i : nat)
  | null_flag_at (i : nat)
  | input_arg_at (i : nat).

Record MYSQL_BIND := {
  buffer_type : option cpp_type;
  buffer : pointer;
  length_ptr : pointer;
  is_null : pointer
}.

(** A value-initialised descriptor, as in [std::vector<MYSQL_BIND>(n)]. *)
Definition MYSQL_BIND_zero : MYSQL_BIND :=
  {| buffer_type := None; buffer := nullptr; length_ptr := nullptr; is_null := nullptr |}.

(** A column of a fetched row as the protocol delivers it. *)
Record column := { col_is_null : bool; col_data : list byte }.

(** What one call of [mysql_stmt_fetch] reports. *)
Inductive fetch_reply :=
  | FetchedRow (cols : list column)
  | FetchedTruncated (cols : list column)
  | FetchNoData
  | FetchFailed.

Definition fetch_status (r : fetch_reply) : Z :=
  match r with
  | FetchedRow _ => 0
  | FetchFailed => 1
  | FetchNoData => MYSQL_NO_DATA
  | FetchedTruncated _ => MYSQL_DATA_TRUNCATED
  end.

Definition fetch_columns (r : fetch_reply) : list column :=
  match r with
  | FetchedRow cols | FetchedTruncated cols => cols
  | FetchNoData | FetchFailed => []
  end.

(** The answers of the server to the statement a call runs on the
    connection [mysql_]. *)
Record MYSQL := {
  prepare_error : option string;
  field_count : nat;
  bind_param_rc : Z;
  bind_result_rc : Z;
  execute_rc : Z;
  fetch_replies : list fetch_reply;
  stmt_error : string;
  server_affected_rows : Z
}.

(** Protocol operations, in the order they are issued. [EvLock] and
    [EvUnlock] are the operations of [std::mutex]. *)
Inductive event :=
  | EvPrepare (query : string)
  | EvBindParam (n : nat)
  | EvBindResult (n : nat)
  | EvExecute
  | EvFetch
  | EvClose
  | EvLock
  | EvUnlock.

#[global] Instance event_eq_dec : EqDecision event.
Proof. solve_decision. Defined.

(** ** Machine state and the monad of calls *)

Record machine := {
  log : list event;
  bound : list MYSQL_BIND;
  output_buffers : list (list byte);
  output_length : list Z;
  null_flag_buffer : list Z;
  mysql_results : MysqlResults
}.

Definition machine_init (r : MysqlResults) : machine :=
  {| log := []; bound := []; output_buffers := []; output_length := [];
     null_flag_buffer := []; mysql_results := r |}.

Definition emit (e : event) (m : machine) : machine :=
  {| log := log m ++ [e]; bound := bound m; output_buffers := output_buffers m;
     output_length := output_length m; null_flag_buffer := null_flag_buffer m;
     mysql_results := mysql_results m |}.

Definition set_bound (bs : list MYSQL_BIND) (m : machine) : machine :=
  {| log := log m; bound := bs; output_buffers := output_buffers m;
     output_length := output_length m; null_flag_buffer := null_flag_buffer m;
     mysql_results := mysql_results m |}.

Definition set_output_buffers (v : list (list byte)) (m : machine) : machine :=
  {| log := log m; bound := bound m; output_buffers := v;
     output_length := output_length m; null_flag_buffer := null_flag_buffer m;
     mysql_results := mysql_results m |}.

Definition set_output_length (v : list Z) (m : machine) : machine :=
  {| log := log m; bound := bound m; output_buffers := output_buffers m;
     output_length := v; null_flag_buffer := null_flag_buffer m;
     mysql_results := mysql_results m |}.

Definition set_null_flag_buffer (v : list Z) (m : machine) : machine :=
  {| log := log m; bound := bound m; output_buffers := output_buffers m;
     output_length := output_length m; null_flag_buffer := v;
     mysql_results := mysql_results m |}.

Definition set_mysql_results (r : MysqlResults) (m : machine) : machine :=
  {| log := log m; bound := bound m; output_buffers := output_buffers m;
     output_length := output_length m; null_flag_buffer := null_flag_buffer m;
     mysql_results := r |}.

Definition set_result_set (v : list row) (r : MysqlResults) : MysqlResults :=
  {| result_set := v; null_flags := null_flags r;
     error_message := error_message r; affected_rows := affected_rows r |}.

Definition set_null_flags (v : list (list Z)) (r : MysqlResults) : MysqlResults :=
  {| result_set := result_set r; null_flags := v;
     error_message := error_message r; affected_rows := affected_rows r |}.

Definition set_affected_rows (v : Z) (r : MysqlResults) : MysqlResults :=
  {| result_set := result_set r; null_flags := null_flags r;
     error_message := error_message r; affected_rows := v |}.

(** [std::runtime_error], the only exception class the executor names. *)
Record runtime_error := { what : string }.

(** A call either returns or leaves by an exception. *)
Inductive outcome (A : Type) :=
  | Returned (a : A)
  | Thrown (e : runtime_error).
Arguments Returned {A} a.
Arguments Thrown {A} e.

Definition M (A : Type) : Type := machine -> outcome A * machine.

Definition ret {A} (a : A) : M A := fun m => (Returned a, m).

Definition bind {A B} (c : M A) (k : A -> M B) : M B :=
  fun m => match c m with
           | (Returned a, m') => k a m'
           | (Thrown e, m') => (Thrown e, m')
           end.

Definition throw {A} (e : runtime_error) : M A := fun m => (Thrown e, m).

Definition modify (f : machine -> machine) : M unit := fun m => (Returned tt, f m).

Definition gets {A} (f : machine -> A) : M A := fun m => (Returned (f m), m).

(** Scope exit: [cleanup] runs whether [c] returns or throws. *)
Definition finally {A} (c : M A) (cleanup : machine -> machine) : M A :=
  fun m => let '(o, m') := c m in (o, cleanup m').

(** An expression statement that builds an object and drops it. *)
Definition discarded {A} (a : A) : M unit := ret tt.

Declare Scope call_scope.
Delimit Scope call_scope with call.
Notation "'let*' x ':=' c 'in' k" := (bind c (fun x => k))
  (at level 10, x name, c at level 100, k at level 200) : call_scope.
Notation "c ';;' k" := (bind c (fun _ => k))
  (at level 100, k at level 200, right associativity) : call_scope.

(** ** Statement handle and C API calls *)

(** Modelled from the spec: the statement wrapper of [mysql_statement.h] is
    not part of the sources at hand.  Construction prepares the query on the
    connection and fails with the protocol's message when the server rejects
    it; destruction closes the server-side statement on every exit path. *)
Record MysqlStatement := { stmt_query : string; STMTPointer : MYSQL }.

(** Modelled from the spec: the constructor of [MysqlStatement], which
    prepares [query] and fails with a [PrepareError] carrying the
    protocol's message. *)
Definition MysqlStatement_ctor (query : string) (mysql_ : MYSQL) : M MysqlStatement :=
  (modify (emit (EvPrepare query));;
   match prepare_error mysql_ with
   | Some msg => throw {| what := msg |}
   | None => ret {| stmt_query := query; STMTPointer := mysql_ |}
   end)%call.

(** Modelled from the spec: the destructor of [MysqlStatement], which
    closes the statement handle. *)
Definition MysqlStatement_dtor (stmt : MysqlStatement) : machine -> machine :=
  emit EvClose.

(** Modelled from the spec: [MysqlStatement::GetFieldCount], the field
    count of the prepared statement. *)
Definition GetFieldCount (stmt : MysqlStatement) : nat :=
  field_count (STMTPointer stmt).

(** [MysqlStatement stmt(query, mysql_); body] with the destructor at the
    end of the scope. *)
Definition with_statement {A} (query : string) (mysql_ : MYSQL)
    (body : MysqlStatement -> M A) : M A :=
  (let* stmt := MysqlStatement_ctor query mysql_ in
   finally (body stmt) (MysqlStatement_dtor stmt))%call.

(** [mysql_stmt_bind_param]: zero on success, non-zero when the protocol
    layer rejects the descriptors. *)
Definition mysql_stmt_bind_param (stmt : MYSQL) (binds : list MYSQL_BIND) : M Z :=
  (modify (emit (EvBindParam (length binds)));; ret (bind_param_rc stmt))%call.

Definition mysql_stmt_error (stmt : MYSQL) : string := stmt_error stmt.

(** [mysql_affected_rows] returns a [my_ulonglong]. *)
Definition mysql_affected_rows (mysql_ : MYSQL) : Z :=
  size_t (server_affected_rows mysql_).

(** A fetch stores each column through the descriptor bound at its
    position: the null indicator always, data and length when the column is
    not NULL.  A buffer is represented by the bytes last stored in it. *)
Definition store_column (b : MYSQL_BIND) (c : column) (m : machine) : machine :=
  let m1 :=
    match is_null b with
    | null_flag_at i =>
        set_null_flag_buffer
          (<[i := if col_is_null c then 1 else 0]> (null_flag_buffer m)) m
    | _ => m
    end in
  if col_is_null c then m1
  else
    let m2 :=
      match buffer b with
      | output_buffer_at i =>
          set_output_buffers (<[i := col_data c]> (output_buffers m1)) m1
      | _ => m1
      end in
    match length_ptr b with
    | output_length_at i =>
        set_output_length
          (<[i := Z.of_nat (length (col_data c))]> (output_length m2)) m2
    | _ => m2
    end.

Fixpoint store_row (binds : list MYSQL_BIND) (cols : list column) (m : machine) : machine :=
  match binds, cols with
  | b :: binds', c :: cols' => store_row binds' cols' (store_column b c m)
  | _, _ => m
  end.

(** [mysql_stmt_fetch] when the server's next answer is [r]. *)
Definition mysql_stmt_fetch (r : fetch_reply) : M Z :=
  fun m =>
    let m1 := emit EvFetch m in
    (Returned (fetch_status r), store_row (bound m1) (fetch_columns r) m1).

(** ** The binder helpers *)

(** Modelled from the spec: [BindInputImpl] of [mysql_binder.h] appends one
    descriptor per input value, in call order, pointing at the value. *)
Fixpoint BindInputImpl_from (i : nat) (params : list MYSQL_BIND) (args : list value)
    : list MYSQL_BIND :=
  match args with
  | [] => params
  | a :: args' =>
      BindInputImpl_from (S i)
        (params ++ [{| buffer_type := Some (value_type a); buffer := input_arg_at i;
                       length_ptr := nullptr; is_null := nullptr |}]) args'
  end.

(** Modelled from the spec: [BindInputImpl(params, args...)], starting at
    the first argument. *)
Definition BindInputImpl (params : list MYSQL_BIND) (args : list value) : list MYSQL_BIND :=
  BindInputImpl_from 0 params args.

(** Modelled from the spec: [BindOutputImpl] of [mysql_binder.h] fills the
    descriptor of column [i] for the [i]-th declared type, pointing at
    buffer [i] and null-flag cell [i].  The vectors were sized by the
    caller; a position past their end is not written. *)
Fixpoint BindOutputImpl_from (i : nat) (OutputArgs : list cpp_type)
    (output_binds : list MYSQL_BIND) : list MYSQL_BIND :=
  match OutputArgs with
  | [] => output_binds
  | T :: Ts =>
      BindOutputImpl_from (S i) Ts
        (<[i := {| buffer_type := Some T; buffer := output_buffer_at i;
                   length_ptr := nullptr; is_null := null_flag_at i |}]> output_binds)
  end.

(** Modelled from the spec: [BindOutputImpl<OutputArgs...>], starting at
    the first column. *)
Definition BindOutputImpl (OutputArgs : list cpp_type) (output_binds : list MYSQL_BIND)
    : list MYSQL_BIND :=
  BindOutputImpl_from 0 OutputArgs output_binds.

(** Modelled from the spec: [SetResultTuple] of [mysql_binder.h] reads each
    column's buffer back at its declared type, preserving column order. *)
Definition read_buffer (m : machine) (b : option MYSQL_BIND) : list byte :=
  match b with
  | Some {| buffer := output_buffer_at j |} => default [] (output_buffers m !! j)
  | _ => []
  end.

(** Modelled from the spec: the null indicator of a column, read through
    the descriptor's [is_null] pointer. *)
Definition read_is_null (m : machine) (b : option MYSQL_BIND) : bool :=
  match b with
  | Some {| is_null := null_flag_at j |} =>
      negb (default 0 (null_flag_buffer m !! j) =? 0)
  | _ => false
  end.

(** Modelled from the spec: the zero or empty representation of a type,
    which a NULL column decodes to: zero bytes over the native width for a
    fixed-width category, no bytes for text. *)
Definition zero_bytes (T : cpp_type) : list byte :=
  match T with
  | Integer width _ | Floating width | DateTime width => replicate width x00
  | Boolean => [x00]
  | Text | OnlyExec => []
  end.

(** Modelled from the spec: the value of one column at its declared type:
    the type's zero value when the column is flagged NULL, the bytes of its
    buffer otherwise. *)
Definition decode_column (m : machine) (T : cpp_type) (b : option MYSQL_BIND) : value :=
  if read_is_null m b then Value T (zero_bytes T) else Value T (read_buffer m b).

(** Modelled from the spec: [SetResultTuple(row_res, output_binds)], one
    value per declared output type. *)
Definition SetResultTuple (OutputArgs : list cpp_type) (output_binds : list MYSQL_BIND)
    : M row :=
  gets (fun m => imap (fun i T => decode_column m T (output_binds !! i)) OutputArgs).

(** ** MysqlExecutor *)

Module MysqlExecutor.

(** Modelled from the spec: [ExecuteStatement] is declared in the header and
    defined elsewhere.  The overload with output descriptors binds them on
    the statement handle, then issues the protocol-level execute; a
    rejection of either step leaves the call with the protocol's message. *)
Definition ExecuteStatement_outputs (output_binds : list MYSQL_BIND)
    (statement : MysqlStatement) : M unit :=
  (modify (emit (EvBindResult (length output_binds)));;
   (if negb (bind_result_rc (STMTPointer statement) =? 0)
    then throw {| what := mysql_stmt_error (STMTPointer statement) |}
    else modify (set_bound output_binds));;
   modify (emit EvExecute);;
   if negb (execute_rc (STMTPointer statement) =? 0)
   then throw {| what := mysql_stmt_error (STMTPointer statement) |}
   else ret tt)%call.

(** Modelled from the spec: the overload of [ExecuteStatement] without
    output descriptors, the protocol-level execute alone. *)
Definition ExecuteStatement (statement : MysqlStatement) : M unit :=
  (modify (emit EvExecute);;
   if negb (execute_rc (STMTPointer statement) =? 0)
   then throw {| what := mysql_stmt_error (STMTPointer statement) |}
   else ret tt)%call.

Definition BindInputArgs (params : list MYSQL_BIND) (args : list value) : list MYSQL_BIND :=
  BindInputImpl params args.

Definition BindOutputs (OutputArgs : list cpp_type) (output_binds : list MYSQL_BIND)
    : list MYSQL_BIND :=
  BindOutputImpl OutputArgs output_binds.

(** [results.push_back(std::move(row_res))] and
    [null_flags.emplace_back(null_flag_buffer)] on the caller's vectors. *)
Definition push_back_result (row_res : row) (m : machine) : machine :=
  set_mysql_results
    (set_result_set (result_set (mysql_results m) ++ [row_res]) (mysql_results m)) m.

Definition emplace_back_null_flags (m : machine) : machine :=
  set_mysql_results
    (set_null_flags (null_flags (mysql_results m) ++ [null_flag_buffer m])
       (mysql_results m)) m.

(** One turn of [while(true)] in [FetchResults], when the server's next
    answer is [r]; [continue] is the rest of the loop, and returning the
    status is the [break]. *)
Definition fetch_iteration (OutputArgs : list cpp_type) (output_binds : list MYSQL_BIND)
    (r : fetch_reply) (continue : M Z) : M Z :=
  (let* status := mysql_stmt_fetch r in
   if (status =? 1) || (status =? MYSQL_NO_DATA) then ret status
   else if status =? MYSQL_DATA_TRUNCATED then
     (* To Do *)
     continue
   else
     let* row_res := SetResultTuple OutputArgs output_binds in
     modify (push_back_result row_res);;
     modify emplace_back_null_flags;;
     continue)%call.

(** The loop over the answers the server still has; once they are used up
    the next fetch reports [MYSQL_NO_DATA]. *)
Fixpoint fetch_loop (OutputArgs : list cpp_type) (output_binds : list MYSQL_BIND)
    (replies : list fetch_reply) : M Z :=
  match replies with
  | [] => fetch_iteration OutputArgs output_binds FetchNoData (ret MYSQL_NO_DATA)
  | r :: rest =>
      fetch_iteration OutputArgs output_binds r (fetch_loop OutputArgs output_binds rest)
  end.

Definition FetchResults (OutputArgs : list cpp_type) (statement : MysqlStatement)
    (output_binds : list MYSQL_BIND) : M unit :=
  (let* status := fetch_loop OutputArgs output_binds (fetch_replies (STMTPointer statement)) in
   if status =? 1
   then discarded {| what := mysql_stmt_error (STMTPointer statement) |}
   else ret tt)%call.

(** [QueryAll(results, null_flags, query, args...)]; the two vectors are the
    members of the machine's [mysql_results]. *)
Definition QueryAll (OutputArgs : list cpp_type) (mysql_ : MYSQL)
    (query : string) (args : list value) : M unit :=
  (modify (fun m => set_mysql_results (set_result_set [] (mysql_results m)) m);;
   modify (fun m => set_mysql_results (set_null_flags [] (mysql_results m)) m);;
   with_statement query mysql_ (fun stmt =>
     let input_binds := BindInputArgs [] args in
     let* rc := mysql_stmt_bind_param (STMTPointer stmt) input_binds in
     (if negb (rc =? 0) then (* handle *) ret tt else ret tt);;
     let output_binds := replicate (GetFieldCount stmt) MYSQL_BIND_zero in
     modify (set_output_buffers (replicate (GetFieldCount stmt) []));;
     modify (set_output_length (replicate (GetFieldCount stmt) 0));;
     modify (set_null_flag_buffer (replicate (GetFieldCount stmt) 0));;
     let output_binds := BindOutputs OutputArgs output_binds in
     let output_binds :=
       imap (fun i b => {| buffer_type := buffer_type b; buffer := buffer b;
                           length_ptr := output_length_at i; is_null := is_null b |})
            output_binds in
     ExecuteStatement_outputs output_binds stmt;;
     FetchResults OutputArgs stmt output_binds))%call.

(** [int Execute(query, args...)]. *)
Definition Execute (mysql_ : MYSQL) (query : string) (args : list value) : M Z :=
  with_statement query mysql_ (fun stmt =>
    (let input_binds := BindInputArgs [] args in
     let* rc := mysql_stmt_bind_param (STMTPointer stmt) input_binds in
     (if negb (rc =? 0) then (* handle *) ret tt else ret tt);;
     ExecuteStatement stmt;;
     let affected_row := size_t (mysql_affected_rows mysql_) in
     ret (int affected_row))%call).

(** Template instantiation: either the instance, or the diagnostic of a
    failed [static_assert] or of overload resolution. *)
Inductive instantiation (A : Type) :=
  | Instantiated (f : A)
  | Rejected (diagnostic : string).
Arguments Instantiated {A} f.
Arguments Rejected {A} diagnostic.

(** [QueryAll(MysqlResults<OutputArgs...>&, query, args...)]. *)
Definition QueryAll_MysqlResults (OutputArgs : list cpp_type)
    : instantiation (MYSQL -> string -> list value -> M unit) :=
  if is_only_exec OutputArgs
  then Rejected "MysqlResults<OnlyExec> cannot be used with QueryAll."
  else Instantiated (fun mysql_ query args => QueryAll OutputArgs mysql_ query args).

(** [Execute(MysqlResults<OnlyExec>&, query, args...)]: the first parameter
    binds only to a [MysqlResults<OnlyExec>]. *)
Definition Execute_MysqlResults (Args : list cpp_type)
    : instantiation (MYSQL -> string -> list value -> M unit) :=
  if bool_decide (Args = [OnlyExec])
  then Instantiated (fun mysql_ query args =>
         (let* n := Execute mysql_ query args in
          modify (fun m =>
            set_mysql_results (set_affected_rows (size_t n) (mysql_results m)) m))%call)
  else Rejected "no matching function for call to Execute".

End MysqlExecutor.

Import MysqlExecutor.

(** ** What a call is expected to leave behind *)

(** Prepare, output binding and execute succeed, so the call reaches the
    fetch loop. *)
Definition statement_runs (mysql_ : MYSQL) : Prop :=
  prepare_error mysql_ = None /\ bind_result_rc mysql_ = 0 /\ execute_rc mysql_ = 0.

(** The first fetch reports end of data. *)
Definition returns_zero_rows (mysql_ : MYSQL) : Prop :=
  match fetch_replies mysql_ with
  | [] | FetchNoData :: _ => True
  | _ => False
  end.

(** The rows the loop keeps: the answers before the first end-of-data or
    error signal that are neither of these nor a truncation signal. *)
Fixpoint kept_rows (replies : list fetch_reply) : list (list column) :=
  match replies with
  | [] => []
  | FetchedRow cols :: rest => cols :: kept_rows rest
  | FetchedTruncated _ :: rest => kept_rows rest
  | FetchNoData :: _ | FetchFailed :: _ => []
  end.

(** Status on which the loop stops, and the number of fetches issued. *)
Fixpoint final_status (replies : list fetch_reply) : Z :=
  match replies with
  | [] => MYSQL_NO_DATA
  | FetchedRow _ :: rest | FetchedTruncated _ :: rest => final_status rest
  | FetchNoData :: _ => MYSQL_NO_DATA
  | FetchFailed :: _ => 1
  end.

Fixpoint fetches_issued (replies : list fetch_reply) : nat :=
  match replies with
  | [] => 1
  | FetchedRow _ :: rest | FetchedTruncated _ :: rest => S (fetches_issued rest)
  | FetchNoData :: _ | FetchFailed :: _ => 1
  end.

(** The protocol operations of one [QueryAll] and of one [Execute]. *)
Definition QueryAll_steps (mysql_ : MYSQL) (query : string) (args : list value)
    : list event :=
  EvPrepare query ::
  match prepare_error mysql_ with
  | Some _ => []
  | None =>
      EvBindParam (length args) :: EvBindResult (field_count mysql_) ::
      (if negb (bind_result_rc mysql_ =? 0) then []
       else EvExecute ::
            (if negb (execute_rc mysql_ =? 0) then []
             else replicate (fetches_issued (fetch_replies mysql_)) EvFetch))
      ++ [EvClose]
  end.

Definition Execute_steps (mysql_ : MYSQL) (query : string) (args : list value)
    : list event :=
  EvPrepare query ::
  match prepare_error mysql_ with
  | Some _ => []
  | None => [EvBindParam (length args); EvExecute; EvClose]
  end.

(** How a [QueryAll] and an [Execute] leave. *)
Definition QueryAll_outcome (mysql_ : MYSQL) : outcome unit :=
  match prepare_error mysql_ with
  | Some msg => Thrown {| what := msg |}
  | None =>
      if negb (bind_result_rc mysql_ =? 0) then Thrown {| what := stmt_error mysql_ |}
      else if negb (execute_rc mysql_ =? 0) then Thrown {| what := stmt_error mysql_ |}
      else Returned tt
  end.

Definition Execute_outcome (mysql_ : MYSQL) : outcome Z :=
  match prepare_error mysql_ with
  | Some msg => Thrown {| what := msg |}
  | None =>
      if negb (execute_rc mysql_ =? 0) then Thrown {| what := stmt_error mysql_ |}
      else Returned (int (size_t (server_affected_rows mysql_)))
  end.

(** The descriptor [QueryAll] ends up with for column [i] of declared type
    [T], once [BindOutputs] and the loop over the lengths have run. *)
Definition output_descriptor (i : nat) (T : cpp_type) : MYSQL_BIND :=
  {| buffer_type := Some T; buffer := output_buffer_at i;
     length_ptr := output_length_at i; is_null := null_flag_at i |}.

(** The descriptors handed to [ExecuteStatement] and [FetchResults]. *)
Definition declared_binds (OutputArgs : list cpp_type) (fields : nat) : list MYSQL_BIND :=
  imap (fun i b => {| buffer_type := buffer_type b; buffer := buffer b;
                      length_ptr := output_length_at i; is_null := is_null b |})
       (BindOutputs OutputArgs (replicate fields MYSQL_BIND_zero)).

(** The machine on entry to the fetch loop of a [QueryAll] whose statement
    was prepared, bound and executed. *)
Definition loop_entry (OutputArgs : list cpp_type) (mysql_ : MYSQL) (query : string)
    (args : list value) (m : machine) : machine :=
  let F := field_count mysql_ in
  let m := set_mysql_results (set_result_set [] (mysql_results m)) m in
  let m := set_mysql_results (set_null_flags [] (mysql_results m)) m in
  let m := emit (EvPrepare query) m in
  let m := emit (EvBindParam (length (BindInputArgs [] args))) m in
  let m := set_output_buffers (replicate F []) m in
  let m := set_output_length (replicate F 0) m in
  let m := set_null_flag_buffer (replicate F 0) m in
  let m := emit (EvBindResult (length (declared_binds OutputArgs F))) m in
  let m := set_bound (declared_binds OutputArgs F) m in
  emit EvExecute m.

(** The null flag the protocol stores for a column, and the flags and
    values of a fetched row at the declared types. *)
Definition null_flag_of (c : column) : Z := if col_is_null c then 1 else 0.

Definition row_decodes (OutputArgs : list cpp_type) (cols : list column) (r : row) : Prop :=
  length r = length OutputArgs /\
  forall i T c, OutputArgs !! i = Some T -> cols !! i = Some c ->
    exists v, r !! i = Some v /\ value_type v = T /\
              (col_is_null c = false -> value_bytes v = col_data c) /\
              (col_is_null c = true -> value_bytes v = zero_bytes T).

(** The answers of [s] with another return code for
    [mysql_stmt_bind_param]. *)
Definition with_bind_param_rc (rc : Z) (s : MYSQL) : MYSQL :=
  {| prepare_error := prepare_error s; field_count := field_count s;
     bind_param_rc := rc; bind_result_rc := bind_result_rc s;
     execute_rc := execute_rc s; fetch_replies := fetch_replies s;
     stmt_error := stmt_error s; server_affected_rows := server_affected_rows s |}.

(** ** Two threads on one connection *)

Inductive thread := ThreadA | ThreadB.

#[global] Instance thread_eq_dec : EqDecision thread.
Proof. solve_decision. Defined.

(** A call of the public interface and the operations it issues, read off
    the log of its run. *)
Inductive call :=
  | CallQueryAll (OutputArgs : list cpp_type) (mysql_ : MYSQL) (query : string)
                 (args : list value)
  | CallExecute (mysql_ : MYSQL) (query : string) (args : list value).

Definition call_steps (c : call) : list event :=
  match c with
  | CallQueryAll Out mysql_ query args =>
      log (QueryAll Out mysql_ query args (machine_init MysqlResults_new)).2
  | CallExecute mysql_ query args =>
      log (Execute mysql_ query args (machine_init MysqlResults_new)).2
  end.

(** The scheduler picks, step by step, the thread that moves; when the
    schedule or a thread is exhausted the remaining steps run in order. *)
Fixpoint interleave (schedule : list thread) (a b : list event)
    : list (thread * event) :=
  match schedule with
  | [] => map (pair ThreadA) a ++ map (pair ThreadB) b
  | ThreadA :: s =>
      match a with
      | e :: a' => (ThreadA, e) :: interleave s a' b
      | [] => map (pair ThreadB) b
      end
  | ThreadB :: s =>
      match b with
      | e :: b' => (ThreadB, e) :: interleave s a b'
      | [] => map (pair ThreadA) a
      end
  end.

(** An execution is possible when every [EvLock] finds the mutex free and
    every [EvUnlock] is issued by the holder; other steps never block. *)
Fixpoint mutex_admits (holder : option thread) (tr : list (thread * event)) : bool :=
  match tr with
  | [] => true
  | (t, EvLock) :: tr' =>
      match holder with
      | None => mutex_admits (Some t) tr'
      | Some _ => false
      end
  | (t, EvUnlock) :: tr' =>
      match holder with
      | Some t' => bool_decide (t = t') && mutex_admits None tr'
      | None => false
      end
  | _ :: tr' => mutex_admits holder tr'
  end.

(** Number of points at which the running thread changes. *)
Fixpoint switches (tr : list (thread * event)) : nat :=
  match tr with
  | (t, _) :: (((t', _) :: _) as tr') =>
      (if bool_decide (t = t') then 0 else 1)%nat + switches tr'
  | _ => 0%nat
  end.

(** All steps of one call come before all steps of the other. *)
Definition serialized (tr : list (thread * event)) : bool :=
  bool_decide (switches tr <= 1)%nat.

Definition fully_serialized (a b : call) : Prop :=
  forall schedule,
    let tr := interleave schedule (call_steps a) (call_steps b) in
    mutex_admits None tr = true -> serialized tr = true.

(** ** The statements of the specification that the code does not meet *)

(** Rows the server delivers before it reports end of data or an error,
    truncated or not. *)
Fixpoint fetched_rows (replies : list fetch_reply) : list (list column) :=
  match replies with
  | [] => []
  | FetchedRow cols :: rest | FetchedTruncated cols :: rest => cols :: fetched_rows rest
  | FetchNoData :: _ | FetchFailed :: _ => []
  end.

(** "QueryAll on a query returning N rows yields exactly N rows, each with
    a flag sequence of length equal to the output arity." *)
Definition rows_and_flags_as_declared (OutputArgs : list cpp_type) (mysql_ : MYSQL)
    (query : string) (args : list value) (m : machine) : Prop :=
  statement_runs mysql_ ->
  let r := mysql_results (QueryAll OutputArgs mysql_ query args m).2 in
  length (result_set r) = length (fetched_rows (fetch_replies mysql_)) /\
  Forall (fun flags => length flags = length OutputArgs) (null_flags r).

(** "If declared output-type count differs from the statement field count,
    the call fails with a usage error before any network fetch occurs." *)
Definition arity_checked_before_fetch (OutputArgs : list cpp_type) (mysql_ : MYSQL)
    (query : string) (args : list value) (m : machine) : Prop :=
  length OutputArgs <> field_count mysql_ ->
  let res := QueryAll OutputArgs mysql_ query args m in
  (exists e, res.1 = Thrown e) /\
  (EvFetch ∉ log res.2) /\
  result_set (mysql_results res.2) = [].

(** ** Frames *)

(** A computation leaves the component [f] of the machine as it found it. *)
Definition stable {A B} (f : machine -> B) (c : M A) : Prop :=
  forall m, f (c m).2 = f m.

(** ** Sample servers *)

Definition answers (fields : nat) (replies : list fetch_reply) (affected : Z) : MYSQL :=
  {| prepare_error := None; field_count := fields; bind_param_rc := 0;
     bind_result_rc := 0; execute_rc := 0; fetch_replies := replies;
     stmt_error := "Lost connection to MySQL server during query";
     server_affected_rows := affected |}.

Definition present (d : list byte) : column := {| col_is_null := false; col_data := d |}.
Definition absent : column := {| col_is_null := true; col_data := [] |}.

(** [SELECT a,b FROM t] over [t(a INT, b TEXT)] holding [(5,"x")] and
    [(6,NULL)]. *)
Definition select_a_b : MYSQL :=
  answers 2 [FetchedRow [present [x05; x00; x00; x00]; present [x78]];
             FetchedRow [present [x06; x00; x00; x00]; absent]] 0.

Definition int_text : list cpp_type := [Integer 4 false; Text].

(** The table holding [(5,NULL)] and [(6,NULL)]. *)
Definition select_a_b_nulls : MYSQL :=
  answers 2 [FetchedRow [present [x05; x00; x00; x00]; absent];
             FetchedRow [present [x06; x00; x00; x00]; absent]] 0.

(** The table holding [(5,NULL)] and [(6,"yz")], the second row being
    reported truncated. *)
Definition select_a_b_truncating : MYSQL :=
  answers 2 [FetchedRow [present [x05; x00; x00; x00]; absent];
             FetchedTruncated [present [x06; x00; x00; x00]; present [x79; x7a]]] 0.

(** The connection drops after the first row. *)
Definition select_a_b_failing : MYSQL :=
  answers 2 [FetchedRow [present [x05; x00; x00; x00]; present [x78]]; FetchFailed] 0.

(** The table holding [(5,"x")] alone, read to the end. *)
Definition select_a_b_one_row : MYSQL :=
  answers 2 [FetchedRow [present [x05; x00; x00; x00]; present [x78]]] 0.

(** [INSERT INTO t(a,b) VALUES (?,?)] with arguments [5] and ["x"]. *)
Definition insert_args : list value :=
  [Value (Integer 4 false) [x05; x00; x00; x00]; Value Text [x78]].

Definition insert_one : MYSQL := answers 0 [] 1.

(** A statement for which the server reports [2^31] affected rows. *)
Definition update_many : MYSQL := answers 0 [] (2 ^ 31).

(** ** Further notions used to describe the calls *)

(** The answers of [s] with other fetch answers. *)
Definition with_fetch_replies (replies : list fetch_reply) (s : MYSQL) : MYSQL :=
  {| prepare_error := prepare_error s; field_count := field_count s;
     bind_param_rc := bind_param_rc s; bind_result_rc := bind_result_rc s;
     execute_rc := execute_rc s; fetch_replies := replies;
     stmt_error := stmt_error s; server_affected_rows := server_affected_rows s |}.

(** Two machines that differ at most in their logs. *)
Definition agree_but_log (m1 m2 : machine) : Prop :=
  bound m1 = bound m2 /\
  output_buffers m1 = output_buffers m2 /\
  output_length m1 = output_length m2 /\
  null_flag_buffer m1 = null_flag_buffer m2 /\
  mysql_results m1 = mysql_results m2.

(** A null flag as [my_bool] stores it. *)
Definition is_flag (z : Z) : Prop := z = 0 \/ z = 1.

(** * Properties *)

(** ** Frame rules of the monad *)

Section Frames.
Context {B : Type} (f : machine -> B).

Lemma stable_ret {A} (a : A) : stable f (ret a).
Proof. intros m. reflexivity. Qed.

Lemma stable_throw {A} (e : runtime_error) : stable f (throw (A := A) e).
Proof. intros m. reflexivity. Qed.

Lemma stable_gets {A} (g : machine -> A) : stable f (gets g).
Proof. intros m. reflexivity. Qed.

Lemma stable_discarded {A} (a : A) : stable f (discarded a).
Proof. intros m. reflexivity. Qed.

Lemma stable_modify (g : machine -> machine) :
  (forall m, f (g m) = f m) -> stable f (modify g).
Proof. intros Hg m. apply Hg. Qed.

Lemma stable_bind {A C} (c : M A) (k : A -> M C) :
  stable f c -> (forall a, stable f (k a)) -> stable f (bind c k).
Proof.
  intros Hc Hk m. unfold bind.
  specialize (Hc m). destruct (c m) as [[a|e] m1]; simpl in *.
  - rewrite Hk. exact Hc.
  - exact Hc.
Qed.

Lemma stable_finally {A} (c : M A) (g : machine -> machine) :
  stable f c -> (forall m, f (g m) = f m) -> stable f (finally c g).
Proof.
  intros Hc Hg m. unfold finally.
  specialize (Hc m). destruct (c m) as [o m1]; simpl in *.
  rewrite Hg. exact Hc.
Qed.

Lemma stable_if {A} (b : bool) (c1 c2 : M A) :
  stable f c1 -> stable f c2 -> stable f (if b then c1 else c2).
Proof. destruct b; auto. Qed.
End Frames.

Create HintDb frame.
#[local] Hint Resolve stable_ret stable_throw stable_gets stable_discarded
  stable_bind stable_finally stable_if : frame.
#[local] Hint Extern 1 (stable _ (modify _)) =>
  apply stable_modify; intros; reflexivity : frame.

Ltac frame := intros; eauto 12 with frame.

(** ** Stores of a fetch *)

Lemma store_column_log b c m : log (store_column b c m) = log m.
Proof.
  unfold store_column.
  destruct (is_null b), (col_is_null c), (buffer b), (length_ptr b); reflexivity.
Qed.

Lemma store_column_bound b c m : bound (store_column b c m) = bound m.
Proof.
  unfold store_column.
  destruct (is_null b), (col_is_null c), (buffer b), (length_ptr b); reflexivity.
Qed.

Lemma store_column_results b c m :
  mysql_results (store_column b c m) = mysql_results m.
Proof.
  unfold store_column.
  destruct (is_null b), (col_is_null c), (buffer b), (length_ptr b); reflexivity.
Qed.

Lemma store_row_log binds cols m : log (store_row binds cols m) = log m.
Proof.
  revert cols m. induction binds as [|b binds IH]; intros [|c cols] m; simpl; trivial.
  rewrite IH. apply store_column_log.
Qed.

Lemma store_row_bound binds cols m : bound (store_row binds cols m) = bound m.
Proof.
  revert cols m. induction binds as [|b binds IH]; intros [|c cols] m; simpl; trivial.
  rewrite IH. apply store_column_bound.
Qed.

Lemma store_row_results binds cols m :
  mysql_results (store_row binds cols m) = mysql_results m.
Proof.
  revert cols m. induction binds as [|b binds IH]; intros [|c cols] m; simpl; trivial.
  rewrite IH. apply store_column_results.
Qed.

(** ** The fetch loop: status, log and termination *)

Lemma fetch_loop_status Out binds replies m :
  (fetch_loop Out binds replies m).1 = Returned (final_status replies).
Proof.
  revert m. induction replies as [|r rest IH]; intros m.
  - reflexivity.
  - destruct r; simpl; unfold fetch_iteration, bind; simpl; try reflexivity.
    + apply IH.
    + apply IH.
Qed.

Lemma fetch_loop_log Out binds replies m :
  log (fetch_loop Out binds replies m).2
  = log m ++ replicate (fetches_issued replies) EvFetch.
Proof.
  revert m. induction replies as [|r rest IH]; intros m.
  - simpl. unfold fetch_iteration, bind. simpl. apply store_row_log.
  - destruct r; simpl; unfold fetch_iteration, bind; simpl;
      rewrite ?IH; simpl; rewrite ?store_row_log; simpl;
      rewrite <- ?app_assoc; reflexivity.
Qed.

Lemma FetchResults_state Out stmt binds m :
  (FetchResults Out stmt binds m).2
  = (fetch_loop Out binds (fetch_replies (STMTPointer stmt)) m).2.
Proof.
  unfold FetchResults, bind.
  pose proof (fetch_loop_status Out binds (fetch_replies (STMTPointer stmt)) m) as Hs.
  destruct (fetch_loop _ _ _ m) as [o m']. simpl in Hs. subst o.
  destruct (final_status _ =? 1); reflexivity.
Qed.

Lemma FetchResults_returns Out stmt binds m :
  (FetchResults Out stmt binds m).1 = Returned tt.
Proof.
  unfold FetchResults, bind.
  pose proof (fetch_loop_status Out binds (fetch_replies (STMTPointer stmt)) m) as Hs.
  destruct (fetch_loop _ _ _ m) as [o m']. simpl in Hs. subst o.
  destruct (final_status _ =? 1); reflexivity.
Qed.

(** ** Binder helpers *)

Lemma BindInputImpl_from_length i params args :
  length (BindInputImpl_from i params args) = (length params + length args)%nat.
Proof.
  revert i params. induction args as [|a args IH]; intros i params; simpl.
  - lia.
  - rewrite IH, length_app. simpl. lia.
Qed.

Lemma BindInputArgs_length args : length (BindInputArgs [] args) = length args.
Proof. unfold BindInputArgs, BindInputImpl. apply BindInputImpl_from_length. Qed.

Lemma BindOutputImpl_from_length i Out binds :
  length (BindOutputImpl_from i Out binds) = length binds.
Proof.
  revert i binds. induction Out as [|T Ts IH]; intros i binds; simpl.
  - reflexivity.
  - rewrite IH. apply length_insert.
Qed.

Lemma output_binds_length Out n (f : nat -> MYSQL_BIND -> MYSQL_BIND) :
  length (imap f (BindOutputs Out (replicate n MYSQL_BIND_zero))) = n.
Proof.
  rewrite length_imap. unfold BindOutputs, BindOutputImpl.
  rewrite BindOutputImpl_from_length. apply length_replicate.
Qed.

(** ** Outcome and protocol trace of a call *)

Ltac run_call :=
  unfold QueryAll, Execute, with_statement, MysqlStatement_ctor, MysqlStatement_dtor,
    ExecuteStatement_outputs, ExecuteStatement, mysql_stmt_bind_param,
    mysql_stmt_error, mysql_affected_rows, GetFieldCount,
    finally, bind, modify, ret, throw; simpl.

Lemma QueryAll_returns Out mysql_ query args m :
  (QueryAll Out mysql_ query args m).1 = QueryAll_outcome mysql_.
Proof.
  unfold QueryAll_outcome. run_call.
  destruct (prepare_error mysql_); simpl; [reflexivity|].
  destruct (bind_param_rc mysql_ =? 0); simpl;
    destruct (bind_result_rc mysql_ =? 0); simpl; try reflexivity;
    destruct (execute_rc mysql_ =? 0); simpl; try reflexivity;
    match goal with
    | |- context [FetchResults ?o ?s ?b ?m0] =>
        pose proof (FetchResults_returns o s b m0) as Hr;
        destruct (FetchResults o s b m0) as [r m']; simpl in *; subst r; reflexivity
    end.
Qed.

Lemma QueryAll_trace Out mysql_ query args m :
  log (QueryAll Out mysql_ query args m).2 = log m ++ QueryAll_steps mysql_ query args.
Proof.
  unfold QueryAll_steps. run_call.
  destruct (prepare_error mysql_); simpl; [reflexivity|].
  rewrite output_binds_length, BindInputArgs_length.
  destruct (bind_param_rc mysql_ =? 0); simpl;
    destruct (bind_result_rc mysql_ =? 0); simpl;
    rewrite <- ?app_assoc; simpl; try reflexivity;
    destruct (execute_rc mysql_ =? 0); simpl;
    rewrite <- ?app_assoc; simpl; try reflexivity;
    match goal with
    | |- context [FetchResults ?o ?s ?b ?m0] =>
        pose proof (FetchResults_state o s b m0) as Hs;
        pose proof (fetch_loop_log o b (fetch_replies (STMTPointer s)) m0) as Hl;
        destruct (FetchResults o s b m0) as [r m']; simpl in *; subst m';
        rewrite Hl; simpl; rewrite <- !app_assoc; reflexivity
    end.
Qed.

Lemma Execute_returns mysql_ query args m :
  (Execute mysql_ query args m).1 = Execute_outcome mysql_.
Proof.
  unfold Execute_outcome. run_call.
  destruct (prepare_error mysql_); simpl; [reflexivity|].
  destruct (bind_param_rc mysql_ =? 0); simpl;
    destruct (execute_rc mysql_ =? 0); simpl; try reflexivity.
  all: unfold size_t; rewrite Z.mod_mod by lia; reflexivity.
Qed.

Lemma Execute_trace mysql_ query args m :
  log (Execute mysql_ query args m).2 = log m ++ Execute_steps mysql_ query args.
Proof.
  unfold Execute_steps. run_call.
  destruct (prepare_error mysql_); simpl; [reflexivity|].
  rewrite BindInputArgs_length.
  destruct (bind_param_rc mysql_ =? 0); simpl;
    destruct (execute_rc mysql_ =? 0); simpl;
    rewrite <- ?app_assoc; reflexivity.
Qed.

(** ** What a call writes *)

Lemma mysql_stmt_fetch_results r m :
  mysql_results (mysql_stmt_fetch r m).2 = mysql_results m.
Proof. unfold mysql_stmt_fetch. simpl. rewrite store_row_results. reflexivity. Qed.

Section ResultFrames.
Context {B : Type} (f : MysqlResults -> B).
Hypothesis f_result_set : forall v r, f (set_result_set v r) = f r.
Hypothesis f_null_flags : forall v r, f (set_null_flags v r) = f r.

Let g (m : machine) : B := f (mysql_results m).

Lemma fetch_iteration_frame Out binds r (continue : M Z) :
  stable g continue -> stable g (fetch_iteration Out binds r continue).
Proof.
  intros Hc. unfold fetch_iteration.
  apply stable_bind.
  - intros m. unfold g. f_equal. apply mysql_stmt_fetch_results.
  - intros status. repeat apply stable_if; [apply stable_ret|exact Hc|].
    apply stable_bind; [apply stable_gets|]. intros row_res.
    apply stable_bind.
    { apply stable_modify. intros m. unfold g. simpl. apply f_result_set. }
    intros _. apply stable_bind; [|intros _; exact Hc].
    apply stable_modify. intros m. unfold g. simpl. apply f_null_flags.
Qed.

Lemma fetch_loop_frame Out binds replies : stable g (fetch_loop Out binds replies).
Proof.
  induction replies as [|r rest IH]; simpl; apply fetch_iteration_frame.
  - apply stable_ret.
  - exact IH.
Qed.

Lemma FetchResults_frame Out stmt binds : stable g (FetchResults Out stmt binds).
Proof.
  unfold FetchResults. apply stable_bind; [apply fetch_loop_frame|].
  intros status. apply stable_if; [apply stable_discarded|apply stable_ret].
Qed.

Lemma QueryAll_frame Out mysql_ query args :
  stable g (QueryAll Out mysql_ query args).
Proof.
  unfold QueryAll, with_statement, MysqlStatement_ctor, MysqlStatement_dtor,
    ExecuteStatement_outputs, mysql_stmt_bind_param.
  apply stable_bind.
  { apply stable_modify. intros m. unfold g. simpl. apply f_result_set. }
  intros _. apply stable_bind.
  { apply stable_modify. intros m. unfold g. simpl. apply f_null_flags. }
  intros _. apply stable_bind.
  { destruct (prepare_error mysql_); frame. }
  intros stmt. apply stable_finally; [|reflexivity].
  repeat (apply stable_bind; [solve [frame]|intros]).
  apply FetchResults_frame.
Qed.
End ResultFrames.

Lemma Execute_frame mysql_ query args :
  stable mysql_results (Execute mysql_ query args).
Proof.
  unfold Execute, with_statement, MysqlStatement_ctor, MysqlStatement_dtor,
    ExecuteStatement, mysql_stmt_bind_param.
  apply stable_bind.
  { destruct (prepare_error mysql_); frame. }
  intros stmt. apply stable_finally; [|reflexivity]. frame.
Qed.

(** ** Descriptors built for the declared output types *)

Lemma BindOutputImpl_from_lookup_lt i Out binds j :
  (j < i)%nat -> BindOutputImpl_from i Out binds !! j = binds !! j.
Proof.
  revert i binds. induction Out as [|T Ts IH]; intros i binds Hj; simpl.
  - reflexivity.
  - rewrite IH by lia. apply list_lookup_insert_ne. lia.
Qed.

Lemma BindOutputImpl_from_lookup i Out binds k T :
  Out !! k = Some T -> (i + k < length binds)%nat ->
  BindOutputImpl_from i Out binds !! (i + k)%nat
  = Some {| buffer_type := Some T; buffer := output_buffer_at (i + k);
            length_ptr := nullptr; is_null := null_flag_at (i + k) |}.
Proof.
  revert i binds k. induction Out as [|T0 Ts IH]; intros i binds k HT Hlt; simpl.
  - discriminate.
  - destruct k as [|k]; simpl in HT.
    + injection HT as ->. rewrite Nat.add_0_r in *.
      rewrite BindOutputImpl_from_lookup_lt by lia.
      apply list_lookup_insert_eq. exact Hlt.
    + replace (i + S k)%nat with (S i + k)%nat by lia.
      apply IH; [exact HT|]. rewrite length_insert. lia.
Qed.

Lemma output_binds_declared Out :
  imap (fun i b => {| buffer_type := buffer_type b; buffer := buffer b;
                      length_ptr := output_length_at i; is_null := is_null b |})
       (BindOutputs Out (replicate (length Out) MYSQL_BIND_zero))
  = imap output_descriptor Out.
Proof.
  apply list_eq. intros j. rewrite !list_lookup_imap.
  unfold BindOutputs, BindOutputImpl.
  destruct (Out !! j) as [T|] eqn:HT; simpl.
  - pose proof (lookup_lt_Some _ _ _ HT) as Hlt.
    pose proof (BindOutputImpl_from_lookup 0 Out
                  (replicate (length Out) MYSQL_BIND_zero) j T HT) as H.
    simpl in H. rewrite H by (rewrite length_replicate; exact Hlt). reflexivity.
  - apply lookup_ge_None in HT.
    rewrite (proj2 (lookup_ge_None _ _)); [reflexivity|].
    rewrite BindOutputImpl_from_length, length_replicate. exact HT.
Qed.

(** ** What a fetch stores through the declared descriptors *)

Lemma store_column_null_flag_buffer i T c m :
  null_flag_buffer (store_column (output_descriptor i T) c m)
  = <[i := null_flag_of c]> (null_flag_buffer m).
Proof. unfold store_column, null_flag_of. simpl. destruct (col_is_null c); reflexivity. Qed.

Lemma store_column_output_buffers i T c m :
  output_buffers (store_column (output_descriptor i T) c m)
  = if col_is_null c then output_buffers m else <[i := col_data c]> (output_buffers m).
Proof. unfold store_column. simpl. destruct (col_is_null c); reflexivity. Qed.

Lemma store_row_null_flag_buffer Ts n cols m j :
  length Ts = length cols ->
  (n + length cols <= length (null_flag_buffer m))%nat ->
  null_flag_buffer
    (store_row (imap (fun i => output_descriptor (n + i)) Ts) cols m) !! j
  = if decide (n <= j < n + length cols)%nat
    then null_flag_of <$> cols !! (j - n)%nat
    else null_flag_buffer m !! j.
Proof.
  revert n cols m. induction Ts as [|T Ts IH]; intros n [|c cols] m Hlen Hn;
    simpl in *; try discriminate.
  - case_decide; [lia|reflexivity].
  - rewrite (imap_ext _ (fun i => output_descriptor (S n + i)))
      by (intros; unfold compose; simpl; f_equal; lia).
    rewrite Nat.add_0_r.
    rewrite IH; [| lia | rewrite store_column_null_flag_buffer, length_insert; lia].
    rewrite store_column_null_flag_buffer.
    repeat case_decide; try lia.
    + replace (j - n)%nat with (S (j - S n)) by lia. reflexivity.
    + assert (j = n) as -> by lia. rewrite Nat.sub_diag. simpl.
      apply list_lookup_insert_eq. lia.
    + apply list_lookup_insert_ne. lia.
Qed.

Lemma store_row_null_flag_buffer_length binds cols m :
  length (null_flag_buffer (store_row binds cols m)) = length (null_flag_buffer m).
Proof.
  revert cols m. induction binds as [|b binds IH]; intros [|c cols] m; simpl; trivial.
  rewrite IH. unfold store_column.
  destruct (is_null b), (col_is_null c), (buffer b), (length_ptr b); simpl;
    rewrite ?length_insert; reflexivity.
Qed.

Lemma store_row_output_buffers_length binds cols m :
  length (output_buffers (store_row binds cols m)) = length (output_buffers m).
Proof.
  revert cols m. induction binds as [|b binds IH]; intros [|c cols] m; simpl; trivial.
  rewrite IH. unfold store_column.
  destruct (is_null b), (col_is_null c), (buffer b), (length_ptr b); simpl;
    rewrite ?length_insert; reflexivity.
Qed.

Lemma store_row_output_buffers Ts n cols m j c :
  length Ts = length cols ->
  (n + length cols <= length (output_buffers m))%nat ->
  (n <= j)%nat -> cols !! (j - n)%nat = Some c -> col_is_null c = false ->
  output_buffers
    (store_row (imap (fun i => output_descriptor (n + i)) Ts) cols m) !! j
  = Some (col_data c).
Proof.
  revert n cols m. induction Ts as [|T Ts IH]; intros n [|c0 cols] m Hlen Hn Hj Hc Hnn;
    simpl in *; try discriminate.
  rewrite (imap_ext _ (fun i => output_descriptor (S n + i)))
    by (intros; unfold compose; simpl; f_equal; lia).
  rewrite Nat.add_0_r.
  destruct (decide (j = n)) as [->|Hne].
  - rewrite Nat.sub_diag in Hc. simpl in Hc. injection Hc as ->.
    clear IH.
    assert (forall Ts' cols' k m', (n < k)%nat ->
              output_buffers
                (store_row (imap (fun i => output_descriptor (k + i)) Ts') cols' m') !! n
              = output_buffers m' !! n) as Hkeep.
    { induction Ts' as [|T' Ts' IH']; intros [|c' cols'] k m' Hk; simpl; trivial.
      rewrite (imap_ext _ (fun i => output_descriptor (S k + i)))
        by (intros; unfold compose; simpl; f_equal; lia).
      rewrite IH' by lia. rewrite store_column_output_buffers.
      destruct (col_is_null c'); [reflexivity|].
      apply list_lookup_insert_ne. lia. }
    rewrite Hkeep by lia. rewrite store_column_output_buffers, Hnn.
    apply list_lookup_insert_eq. lia.
  - apply IH.
    + lia.
    + rewrite store_column_output_buffers.
      destruct (col_is_null c0); rewrite ?length_insert; lia.
    + lia.
    + replace (j - n)%nat with (S (j - S n)) in Hc by lia. exact Hc.
    + exact Hnn.
Qed.

Lemma store_row_declared_null_flags Out cols m :
  length cols = length Out ->
  length (null_flag_buffer m) = length Out ->
  null_flag_buffer (store_row (imap output_descriptor Out) cols m)
  = map null_flag_of cols.
Proof.
  intros Hc Hn. apply list_eq. intros j.
  etransitivity.
  { apply (store_row_null_flag_buffer Out 0 cols m j); simpl; lia. }
  rewrite list_lookup_fmap. case_decide as Hj.
  - rewrite Nat.sub_0_r. reflexivity.
  - rewrite (proj2 (lookup_ge_None _ j)) by lia.
    rewrite (proj2 (lookup_ge_None cols j)) by lia. reflexivity.
Qed.

Lemma store_row_declared_buffers Out cols m i c :
  length cols = length Out ->
  length (output_buffers m) = length Out ->
  cols !! i = Some c -> col_is_null c = false ->
  output_buffers (store_row (imap output_descriptor Out) cols m) !! i
  = Some (col_data c).
Proof.
  intros Hc Ho Hi Hnn.
  apply (store_row_output_buffers Out 0 cols m i c); simpl; try lia; trivial.
  rewrite Nat.sub_0_r. exact Hi.
Qed.

(** ** Rows and flags appended by the loop *)

Lemma fetch_loop_counts Out binds replies m :
  let r' := mysql_results (fetch_loop Out binds replies m).2 in
  length (result_set r')
  = (length (result_set (mysql_results m)) + length (kept_rows replies))%nat /\
  length (null_flags r')
  = (length (null_flags (mysql_results m)) + length (kept_rows replies))%nat.
Proof.
  revert m. induction replies as [|r rest IH]; intros m.
  - simpl. unfold fetch_iteration, bind. simpl.
    rewrite store_row_results. simpl. lia.
  - destruct r; simpl; unfold fetch_iteration, bind; simpl.
    + destruct (IH (emplace_back_null_flags
                      (push_back_result
                         (imap (fun i T =>
                            decode_column
                              (store_row (bound m) cols (emit EvFetch m)) T (binds !! i)) Out)
                         (store_row (bound m) cols (emit EvFetch m))))) as [H1 H2].
      simpl in H1, H2. unfold gets, modify in *. simpl in *.
      rewrite H1, H2. rewrite !length_app, !store_row_results. simpl. lia.
    + destruct (IH (store_row (bound m) cols (emit EvFetch m))) as [H1 H2].
      simpl in H1, H2. rewrite H1, H2, !store_row_results. simpl. lia.
    + rewrite store_row_results. simpl. lia.
    + rewrite store_row_results. simpl. lia.
Qed.

Lemma fetch_loop_rows Out rows m :
  bound m = imap output_descriptor Out ->
  length (null_flag_buffer m) = length Out ->
  length (output_buffers m) = length Out ->
  Forall (fun cols => length cols = length Out) rows ->
  let r' := mysql_results
              (fetch_loop Out (imap output_descriptor Out) (map FetchedRow rows) m).2 in
  null_flags r' = null_flags (mysql_results m) ++ map (map null_flag_of) rows /\
  exists new, result_set r' = result_set (mysql_results m) ++ new /\
              Forall2 (row_decodes Out) rows new.
Proof.
  intros Hb Hn Ho Hrows. revert m Hb Hn Ho.
  induction Hrows as [|cols rows Hcols Hrows IH]; intros m Hb Hn Ho.
  - simpl. unfold fetch_iteration, bind. simpl. rewrite store_row_results. simpl.
    rewrite !app_nil_r. split; [reflexivity|].
    exists []. rewrite app_nil_r. split; [reflexivity|constructor].
  - simpl. unfold fetch_iteration, bind, SetResultTuple, gets, modify. simpl.
    set (m1 := store_row (bound m) cols (emit EvFetch m)).
    set (row_res := imap (fun i T =>
                      decode_column m1 T (imap output_descriptor Out !! i)) Out).
    set (m3 := emplace_back_null_flags (push_back_result row_res m1)).
    assert (bound m1 = imap output_descriptor Out) as Hb1.
    { unfold m1. rewrite store_row_bound. exact Hb. }
    assert (length (null_flag_buffer m1) = length Out) as Hn1.
    { unfold m1. rewrite store_row_null_flag_buffer_length. exact Hn. }
    assert (length (output_buffers m1) = length Out) as Ho1.
    { unfold m1. rewrite store_row_output_buffers_length. exact Ho. }
    assert (mysql_results m1 = mysql_results m) as Hr1.
    { unfold m1. rewrite store_row_results. reflexivity. }
    assert (null_flag_buffer m1 = map null_flag_of cols) as Hflags.
    { unfold m1. simpl. rewrite Hb.
      apply store_row_declared_null_flags; [exact Hcols|exact Hn]. }
    assert (row_decodes Out cols row_res) as Hrow.
    { split.
      - unfold row_res. apply length_imap.
      - intros i T c HT Hc.
        assert (null_flag_buffer m1 !! i = Some (null_flag_of c)) as Hflag.
        { rewrite Hflags, list_lookup_fmap, Hc. reflexivity. }
        exists (decode_column m1 T (Some (output_descriptor i T))).
        split; [|split; [|split]].
        + unfold row_res. rewrite !list_lookup_imap, HT. reflexivity.
        + unfold decode_column. destruct (read_is_null _ _); reflexivity.
        + intros Hnn. unfold decode_column, read_is_null, null_flag_of in *.
          simpl. rewrite Hflag, Hnn. simpl.
          unfold m1. simpl. rewrite Hb.
          rewrite (store_row_declared_buffers Out cols (emit EvFetch m) i c);
            trivial.
        + intros Hnull. unfold decode_column, read_is_null, null_flag_of in *.
          simpl. rewrite Hflag, Hnull. reflexivity. }
    destruct (IH m3) as [IHf (new & IHr & IHd)].
    { unfold m3. simpl. exact Hb1. }
    { unfold m3. simpl. exact Hn1. }
    { unfold m3. simpl. exact Ho1. }
    split.
    + rewrite IHf. unfold m3. simpl. rewrite Hr1, Hflags, <- app_assoc. reflexivity.
    + exists (row_res :: new). split.
      * rewrite IHr. unfold m3. simpl. rewrite Hr1, <- app_assoc. reflexivity.
      * constructor; assumption.
Qed.

(** ** The state a call leaves *)

Lemma QueryAll_reaches_loop Out mysql_ query args m :
  statement_runs mysql_ ->
  (QueryAll Out mysql_ query args m).2
  = emit EvClose
      (fetch_loop Out (declared_binds Out (field_count mysql_))
         (fetch_replies mysql_) (loop_entry Out mysql_ query args m)).2.
Proof.
  intros (Hp & Hb & He). run_call. rewrite Hp. simpl.
  rewrite Hb, He. simpl.
  destruct (bind_param_rc mysql_ =? 0); simpl;
    match goal with
    | |- context [FetchResults ?o ?s ?b ?m0] =>
        pose proof (FetchResults_state o s b m0) as Hs;
        destruct (FetchResults o s b m0) as [r m']; simpl in *; subst m';
        reflexivity
    end.
Qed.

Lemma QueryAll_fails_empty Out mysql_ query args m :
  QueryAll_outcome mysql_ <> Returned tt ->
  result_set (mysql_results (QueryAll Out mysql_ query args m).2) = [] /\
  null_flags (mysql_results (QueryAll Out mysql_ query args m).2) = [].
Proof.
  unfold QueryAll_outcome. intros Hfail. run_call.
  destruct (prepare_error mysql_); simpl; [split; reflexivity|].
  destruct (bind_param_rc mysql_ =? 0); simpl;
    destruct (bind_result_rc mysql_ =? 0); simpl in *; try (split; reflexivity);
    destruct (execute_rc mysql_ =? 0); simpl in *; try (split; reflexivity);
    congruence.
Qed.

Lemma QueryAll_counts Out mysql_ query args m :
  statement_runs mysql_ ->
  length (result_set (mysql_results (QueryAll Out mysql_ query args m).2))
  = length (kept_rows (fetch_replies mysql_)) /\
  length (null_flags (mysql_results (QueryAll Out mysql_ query args m).2))
  = length (kept_rows (fetch_replies mysql_)).
Proof.
  intros Hruns. rewrite QueryAll_reaches_loop by exact Hruns. simpl.
  destruct (fetch_loop_counts Out (declared_binds Out (field_count mysql_))
              (fetch_replies mysql_) (loop_entry Out mysql_ query args m)) as [H1 H2].
  simpl in H1, H2. rewrite H1, H2. split; reflexivity.
Qed.

Lemma statement_runs_dec mysql_ :
  statement_runs mysql_ \/ QueryAll_outcome mysql_ <> Returned tt.
Proof.
  unfold statement_runs, QueryAll_outcome.
  destruct (prepare_error mysql_); [right; discriminate|].
  destruct (Z.eqb_spec (bind_result_rc mysql_) 0); simpl; [|right; discriminate].
  destruct (Z.eqb_spec (execute_rc mysql_) 0); simpl; [|right; discriminate].
  left. auto.
Qed.

Lemma zero_rows_kept mysql_ :
  returns_zero_rows mysql_ -> kept_rows (fetch_replies mysql_) = [].
Proof.
  unfold returns_zero_rows. destruct (fetch_replies mysql_) as [|[] ?]; simpl; tauto.
Qed.

Lemma fetch_loop_flag_lengths Out binds replies n :
  forall m,
    length (null_flag_buffer m) = n ->
    Forall (fun flags => length flags = n) (null_flags (mysql_results m)) ->
    Forall (fun flags => length flags = n)
      (null_flags (mysql_results (fetch_loop Out binds replies m).2)).
Proof.
  induction replies as [|r rest IH]; intros m Hn Hall.
  - simpl. unfold fetch_iteration, bind. simpl. rewrite store_row_results. exact Hall.
  - destruct r; simpl; unfold fetch_iteration, bind, SetResultTuple, gets, modify; simpl.
    + apply IH; simpl.
      * rewrite store_row_null_flag_buffer_length. exact Hn.
      * rewrite store_row_results. simpl. apply Forall_app. split; [exact Hall|].
        constructor; [|constructor].
        rewrite store_row_null_flag_buffer_length. exact Hn.
    + apply IH.
      * rewrite store_row_null_flag_buffer_length. exact Hn.
      * rewrite store_row_results. exact Hall.
    + rewrite store_row_results. exact Hall.
    + rewrite store_row_results. exact Hall.
Qed.

Lemma QueryAll_flag_lengths Out mysql_ query args m :
  Forall (fun flags => length flags = field_count mysql_)
    (null_flags (mysql_results (QueryAll Out mysql_ query args m).2)).
Proof.
  destruct (statement_runs_dec mysql_) as [Hruns|Hfail].
  - rewrite QueryAll_reaches_loop by exact Hruns. simpl.
    apply fetch_loop_flag_lengths.
    + unfold loop_entry. simpl. apply length_replicate.
    + unfold loop_entry. simpl. constructor.
  - destruct (QueryAll_fails_empty Out mysql_ query args m Hfail) as [_ ->].
    constructor.
Qed.

(** Within the range of [int] the count comes back unchanged. *)
Lemma Execute_returns_count mysql_ query args m :
  prepare_error mysql_ = None -> execute_rc mysql_ = 0 ->
  0 <= server_affected_rows mysql_ < 2 ^ 31 ->
  (Execute mysql_ query args m).1 = Returned (server_affected_rows mysql_).
Proof.
  intros Hp He Hrange. rewrite Execute_returns. unfold Execute_outcome.
  rewrite Hp, He. simpl. f_equal. unfold int, size_t.
  rewrite (Z.mod_small (server_affected_rows mysql_)) by lia.
  rewrite Z.mod_small by lia. lia.
Qed.

(** * The claims *)

(** C1, as stated, fails: with one declared output type over a statement
    of two fields, [QueryAll] returns the two rows the server delivers,
    each with a flag sequence of length two, not one. *)
Lemma rows_and_flags_counterexample :
  let res := QueryAll [Integer 4 false] select_a_b_nulls "SELECT a,b FROM t" []
               (machine_init MysqlResults_new) in
  res.1 = Returned tt /\
  length (result_set (mysql_results res.2)) = 2%nat /\
  null_flags (mysql_results res.2) = [[0; 0]; [0; 0]] /\
  ~ rows_and_flags_as_declared [Integer 4 false] select_a_b_nulls
      "SELECT a,b FROM t" [] (machine_init MysqlResults_new).
Proof.
  simpl. repeat split.
  intros H. destruct H as [_ Hflags].
  - repeat split.
  - vm_compute in Hflags. inversion Hflags as [|? ? Hlen _]. discriminate Hlen.
Qed.

(** C1 (amended): when the statement's field count equals the declared
    output arity and the server delivers [N] rows of that many columns
    and then end of data, [QueryAll] returns with exactly [N] rows and [N]
    flag sequences, every flag sequence has the length of the declared
    arity, flag [i] of a row is the null indicator of its column [i], and
    value [i] has the [i]-th declared type and, when the column is not
    NULL, the bytes of column [i]. *)
Theorem QueryAll_rows_flags_aligned Out mysql_ query args m rows :
  statement_runs mysql_ ->
  field_count mysql_ = length Out ->
  fetch_replies mysql_ = map FetchedRow rows ->
  Forall (fun cols => length cols = length Out) rows ->
  let res := QueryAll Out mysql_ query args m in
  res.1 = Returned tt /\
  length (result_set (mysql_results res.2)) = length rows /\
  null_flags (mysql_results res.2) = map (map null_flag_of) rows /\
  Forall (fun flags => length flags = length Out) (null_flags (mysql_results res.2)) /\
  Forall2 (row_decodes Out) rows (result_set (mysql_results res.2)).
Proof.
  intros Hruns HF Hrep Hrows. simpl.
  assert ((QueryAll Out mysql_ query args m).1 = Returned tt) as Hret.
  { rewrite QueryAll_returns. unfold QueryAll_outcome.
    destruct Hruns as (-> & -> & ->). reflexivity. }
  rewrite QueryAll_reaches_loop by exact Hruns.
  unfold declared_binds. rewrite HF, output_binds_declared, Hrep. simpl.
  destruct (fetch_loop_rows Out rows (loop_entry Out mysql_ query args m))
    as [Hflags (new & Hres & Hdec)].
  - unfold loop_entry, declared_binds. simpl. rewrite HF. apply output_binds_declared.
  - unfold loop_entry. simpl. rewrite HF. apply length_replicate.
  - unfold loop_entry. simpl. rewrite HF. apply length_replicate.
  - exact Hrows.
  - simpl in Hflags, Hres. rewrite Hflags, Hres. simpl.
    split; [exact Hret|]. split; [|split; [reflexivity|split]].
    + symmetry. eapply Forall2_length. exact Hdec.
    + apply Forall_fmap. eapply Forall_impl; [exact Hrows|].
      intros cols Hcols. simpl. rewrite length_map. exact Hcols.
    + exact Hdec.
Qed.

Lemma QueryAll_rows_flags_aligned_witness :
  let res := QueryAll int_text select_a_b "SELECT a,b FROM t" []
               (machine_init MysqlResults_new) in
  res.1 = Returned tt /\
  length (result_set (mysql_results res.2)) = 2%nat /\
  null_flags (mysql_results res.2) = [[0; 0]; [0; 1]].
Proof.
  destruct (QueryAll_rows_flags_aligned int_text select_a_b "SELECT a,b FROM t" []
              (machine_init MysqlResults_new)
              [[present [x05; x00; x00; x00]; present [x78]];
               [present [x06; x00; x00; x00]; absent]])
    as (H1 & H2 & H3 & _).
  - repeat split.
  - reflexivity.
  - reflexivity.
  - repeat constructor.
  - simpl. repeat split; assumption.
Defined.

(** C2, as stated, fails: one declared output type against a statement of
    two fields is not rejected; the call returns, has fetched, and has
    filled the result collection. *)
Lemma arity_check_counterexample :
  let res := QueryAll [Integer 4 false] select_a_b_nulls "SELECT a,b FROM t" []
               (machine_init MysqlResults_new) in
  length [Integer 4 false] <> field_count select_a_b_nulls /\
  res.1 = Returned tt /\
  log res.2 = [EvPrepare "SELECT a,b FROM t"; EvBindParam 0; EvBindResult 2;
               EvExecute; EvFetch; EvFetch; EvFetch; EvClose] /\
  length (result_set (mysql_results res.2)) = 2%nat /\
  ~ arity_checked_before_fetch [Integer 4 false] select_a_b_nulls "SELECT a,b FROM t" []
      (machine_init MysqlResults_new).
Proof.
  simpl. split; [discriminate|]. repeat split.
  intros H. destruct H as [[e He] _].
  - discriminate.
  - vm_compute in He. discriminate.
Qed.

(** C2 (amended): [QueryAll] does not compare the declared output-type
    count with the statement's field count.  Whether the call returns or
    throws, and which protocol operations it issues, fetches included, is
    the same for every list of declared output types; the flag sequences
    it appends have the length of the field count. *)
Theorem QueryAll_ignores_output_arity Out1 Out2 mysql_ query args m :
  (QueryAll Out1 mysql_ query args m).1 = (QueryAll Out2 mysql_ query args m).1 /\
  log (QueryAll Out1 mysql_ query args m).2 = log (QueryAll Out2 mysql_ query args m).2 /\
  Forall (fun flags => length flags = field_count mysql_)
    (null_flags (mysql_results (QueryAll Out1 mysql_ query args m).2)).
Proof.
  rewrite !QueryAll_returns, !QueryAll_trace.
  split; [reflexivity|]. split; [reflexivity|]. apply QueryAll_flag_lengths.
Qed.

(** [QueryAll] clears both collections first, so the call does not
    depend on what they held; a query whose first fetch reports end of data
    leaves both collections empty; and when the statement runs the call
    returns only after the loop has ended, with one row and one flag
    sequence for every row the loop kept. *)
Theorem QueryAll_clears_then_fills Out mysql_ query args m :
  let res := QueryAll Out mysql_ query args m in
  (forall rs nf,
     QueryAll Out mysql_ query args
       (set_mysql_results (set_null_flags nf (set_result_set rs (mysql_results m))) m)
     = res) /\
  (returns_zero_rows mysql_ ->
     result_set (mysql_results res.2) = [] /\ null_flags (mysql_results res.2) = []) /\
  (statement_runs mysql_ ->
     res.1 = Returned tt /\
     length (result_set (mysql_results res.2))
     = length (kept_rows (fetch_replies mysql_)) /\
     length (null_flags (mysql_results res.2))
     = length (kept_rows (fetch_replies mysql_))).
Proof.
  simpl. split; [|split].
  - intros rs nf. reflexivity.
  - intros Hzero. destruct (statement_runs_dec mysql_) as [Hruns|Hfail].
    + destruct (QueryAll_counts Out mysql_ query args m Hruns) as [H1 H2].
      rewrite (zero_rows_kept _ Hzero) in H1, H2. simpl in H1, H2.
      split; apply nil_length_inv; assumption.
    + apply QueryAll_fails_empty. exact Hfail.
  - intros Hruns. split.
    + rewrite QueryAll_returns. unfold QueryAll_outcome.
      destruct Hruns as (-> & -> & ->). reflexivity.
    + apply QueryAll_counts. exact Hruns.
Qed.

Lemma QueryAll_clears_then_fills_witness :
  let stale := set_result_set [[Value Text [x7a]]] (set_null_flags [[0]] MysqlResults_new) in
  let res := QueryAll int_text (answers 2 [] 0) "SELECT a,b FROM t" []
               (machine_init stale) in
  res.1 = Returned tt /\
  result_set (mysql_results res.2) = [] /\ null_flags (mysql_results res.2) = [].
Proof.
  destruct (QueryAll_clears_then_fills int_text (answers 2 [] 0) "SELECT a,b FROM t" []
              (machine_init (set_result_set [[Value Text [x7a]]]
                               (set_null_flags [[0]] MysqlResults_new))))
    as (_ & Hzero & Hruns).
  destruct Hzero as [H1 H2]; [exact I|].
  destruct Hruns as (H3 & _); [repeat split|].
  simpl. repeat split; assumption.
Defined.

(** C6, on the code: the collection handed back is not always the full
    one.  When the connection fails after the first of the rows,
    [QueryAll] returns normally with that one row, exactly as it does for
    a table that holds this row alone, so the caller receives a partial
    collection as if it were complete; and a row reported truncated is
    missing from the collection returned.  Both come from the defects of
    C3 and C5: the error that is built and not thrown, and the empty
    truncation branch. *)
Theorem partial_collection_returned :
  let failing := QueryAll int_text select_a_b_failing "SELECT a,b FROM t" []
                   (machine_init MysqlResults_new) in
  let truncating := QueryAll int_text select_a_b_truncating "SELECT a,b FROM t" []
                      (machine_init MysqlResults_new) in
  final_status (fetch_replies select_a_b_failing) = 1 /\
  failing.1 = Returned tt /\
  result_set (mysql_results failing.2)
  = [[Value (Integer 4 false) [x05; x00; x00; x00]; Value Text [x78]]] /\
  null_flags (mysql_results failing.2) = [[0; 0]] /\
  failing = QueryAll int_text select_a_b_one_row "SELECT a,b FROM t" []
              (machine_init MysqlResults_new) /\
  length (fetched_rows (fetch_replies select_a_b_truncating)) = 2%nat /\
  truncating.1 = Returned tt /\
  result_set (mysql_results truncating.2)
  = [[Value (Integer 4 false) [x05; x00; x00; x00]; Value Text []]] /\
  null_flags (mysql_results truncating.2) = [[0; 1]].
Proof.
  vm_compute. repeat split.
Qed.

(** C10: [QueryAll] on a [MysqlResults] object leaves [error_message] and
    [affected_rows] as they were, and [Execute] on a
    [MysqlResults<OnlyExec>] object leaves [error_message], [result_set]
    and [null_flags] as they were. *)
Theorem MysqlResults_overloads_frame mysql_ query args m :
  (forall Out f, QueryAll_MysqlResults Out = Instantiated f ->
     let r' := mysql_results (f mysql_ query args m).2 in
     error_message r' = error_message (mysql_results m) /\
     affected_rows r' = affected_rows (mysql_results m)) /\
  (forall Args f, Execute_MysqlResults Args = Instantiated f ->
     let r' := mysql_results (f mysql_ query args m).2 in
     error_message r' = error_message (mysql_results m) /\
     result_set r' = result_set (mysql_results m) /\
     null_flags r' = null_flags (mysql_results m)).
Proof.
  split.
  - intros Out f Hf. unfold QueryAll_MysqlResults in Hf.
    destruct (is_only_exec Out); [discriminate|].
    injection Hf as <-. simpl. split.
    + apply (QueryAll_frame error_message); reflexivity.
    + apply (QueryAll_frame affected_rows); reflexivity.
  - intros Args f Hf. unfold Execute_MysqlResults in Hf.
    case_bool_decide; [|discriminate].
    injection Hf as <-. simpl. unfold bind, modify.
    pose proof (Execute_frame mysql_ query args m) as Hfr.
    destruct (Execute mysql_ query args m) as [[n|e] m']; simpl in *;
      rewrite Hfr; repeat split.
Qed.

Lemma MysqlResults_overloads_frame_witness :
  let filled := {| result_set := [[Value Text [x78]]]; null_flags := [[0]];
                   error_message := "previous"; affected_rows := 7 |} in
  (exists f, QueryAll_MysqlResults int_text = Instantiated f /\
     let r' := mysql_results
                 (f select_a_b "SELECT a,b FROM t" [] (machine_init filled)).2 in
     error_message r' = "previous" /\ affected_rows r' = 7) /\
  (exists f, Execute_MysqlResults [OnlyExec] = Instantiated f /\
     let r' := mysql_results
                 (f insert_one "INSERT INTO t(a,b) VALUES (?,?)" insert_args
                    (machine_init filled)).2 in
     error_message r' = "previous" /\ result_set r' = [[Value Text [x78]]] /\
     null_flags r' = [[0]]).
Proof.
  split.
  - eexists. split; [reflexivity|].
    destruct (MysqlResults_overloads_frame select_a_b "SELECT a,b FROM t" []
                (machine_init {| result_set := [[Value Text [x78]]]; null_flags := [[0]];
                                 error_message := "previous"; affected_rows := 7 |}))
      as [HQ _].
    exact (HQ int_text _ eq_refl).
  - eexists. split; [reflexivity|].
    destruct (MysqlResults_overloads_frame insert_one "INSERT INTO t(a,b) VALUES (?,?)"
                insert_args
                (machine_init {| result_set := [[Value Text [x78]]]; null_flags := [[0]];
                                 error_message := "previous"; affected_rows := 7 |}))
      as [_ HE].
    exact (HE [OnlyExec] _ eq_refl).
Defined.

(** C3, on the code: [FetchResults] builds the [std::runtime_error] with
    the protocol's text and drops it without throwing, so it returns
    normally whatever the fetches reported.  When the connection fails
    after the first row, [QueryAll] returns with that row and no error
    reaches the caller. *)
Theorem fetch_error_not_raised :
  (forall Out stmt binds m, (FetchResults Out stmt binds m).1 = Returned tt) /\
  (let res := QueryAll int_text select_a_b_failing "SELECT a,b FROM t" []
                (machine_init MysqlResults_new) in
   final_status (fetch_replies select_a_b_failing) = 1 /\
   res.1 = Returned tt /\
   log res.2 = [EvPrepare "SELECT a,b FROM t"; EvBindParam 0; EvBindResult 2;
                EvExecute; EvFetch; EvFetch; EvClose] /\
   null_flags (mysql_results res.2) = [[0; 0]] /\
   error_message (mysql_results res.2) = "").
Proof.
  split.
  - apply FetchResults_returns.
  - vm_compute. repeat split.
Qed.

(** C4, on the code: the return code of [mysql_stmt_bind_param] is tested
    and nothing is done with it.  [QueryAll] and [Execute] behave the same
    whatever the code is; with a rejected bind, [Execute] still issues the
    protocol-level execute and returns the affected-row count. *)
Theorem bind_failure_ignored :
  (forall Out mysql_ query args m rc,
     QueryAll Out (with_bind_param_rc rc mysql_) query args m
     = QueryAll Out (with_bind_param_rc 0 mysql_) query args m) /\
  (forall mysql_ query args m rc,
     Execute (with_bind_param_rc rc mysql_) query args m
     = Execute (with_bind_param_rc 0 mysql_) query args m) /\
  (let res := Execute (with_bind_param_rc 1 insert_one)
                "INSERT INTO t(a,b) VALUES (?,?)" insert_args
                (machine_init MysqlResults_new) in
   res.1 = Returned 1 /\
   log res.2 = [EvPrepare "INSERT INTO t(a,b) VALUES (?,?)"; EvBindParam 2;
                EvExecute; EvClose]).
Proof.
  split; [|split].
  - intros. run_call. destruct (prepare_error mysql_); simpl; [reflexivity|].
    destruct (rc =? 0); reflexivity.
  - intros. run_call. destruct (prepare_error mysql_); simpl; [reflexivity|].
    destruct (rc =? 0); reflexivity.
  - vm_compute. repeat split.
Qed.

(** C5, on the code: the branch for [MYSQL_DATA_TRUNCATED] is empty.  A
    row reported truncated is neither fetched again nor turned into a
    failure: the loop goes on to the next fetch with nothing appended, and
    the call returns with one row fewer than the server delivered. *)
Theorem truncated_row_dropped :
  (forall Out binds cols rest m,
     fetch_loop Out binds (FetchedTruncated cols :: rest) m
     = fetch_loop Out binds rest (mysql_stmt_fetch (FetchedTruncated cols) m).2) /\
  (let res := QueryAll int_text select_a_b_truncating "SELECT a,b FROM t" []
                (machine_init MysqlResults_new) in
   length (fetched_rows (fetch_replies select_a_b_truncating)) = 2%nat /\
   res.1 = Returned tt /\
   log res.2 = [EvPrepare "SELECT a,b FROM t"; EvBindParam 0; EvBindResult 2;
                EvExecute; EvFetch; EvFetch; EvFetch; EvClose] /\
   result_set (mysql_results res.2)
   = [[Value (Integer 4 false) [x05; x00; x00; x00]; Value Text []]] /\
   null_flags (mysql_results res.2) = [[0; 1]]).
Proof.
  split.
  - reflexivity.
  - vm_compute. repeat split.
Qed.

(** C7, on the code: [Execute] narrows the [size_t] count to [int].  For a
    reported count of [2^31] it returns [-2^31], and the [MysqlResults]
    overload stores that value converted back to [size_t]. *)
Theorem affected_rows_wrap :
  let res := Execute update_many "UPDATE t SET a = a + 1" []
               (machine_init MysqlResults_new) in
  mysql_affected_rows update_many = 2147483648 /\
  res.1 = Returned (-2147483648) /\
  (exists f, Execute_MysqlResults [OnlyExec] = Instantiated f /\
     affected_rows
       (mysql_results (f update_many "UPDATE t SET a = a + 1" []
                         (machine_init MysqlResults_new)).2)
     = 18446744071562067968).
Proof.
  simpl. split; [reflexivity|]. split; [reflexivity|].
  eexists. split; [reflexivity|]. vm_compute. reflexivity.
Qed.

(** C8: instantiating [QueryAll] with [MysqlResults<OnlyExec>] is rejected
    by the [static_assert], before any call can run: the marker test
    singles out exactly that result type, so no instance of [QueryAll]
    exists for it; the [MysqlResults] overload of [Execute] has an
    instance for [MysqlResults<OnlyExec>] and for nothing else. *)
Theorem OnlyExec_only_with_Execute :
  QueryAll_MysqlResults [OnlyExec]
  = Rejected "MysqlResults<OnlyExec> cannot be used with QueryAll." /\
  (forall Args, is_only_exec Args = true <-> Args = [OnlyExec]) /\
  (forall Out f, QueryAll_MysqlResults Out = Instantiated f -> Out <> [OnlyExec]) /\
  (forall Args, (exists f, Execute_MysqlResults Args = Instantiated f) <-> Args = [OnlyExec]).
Proof.
  split; [reflexivity|]. split; [|split].
  - intros Args. unfold is_only_exec. apply bool_decide_eq_true.
  - intros Out f Hf ->. discriminate Hf.
  - intros Args. unfold Execute_MysqlResults.
    case_bool_decide as H; split.
    + intros _. exact H.
    + intros _. eexists. reflexivity.
    + intros [f Hf]. discriminate.
    + intros Heq. contradiction.
Qed.

Lemma OnlyExec_only_with_Execute_witness :
  is_only_exec [OnlyExec] = true /\
  int_text <> [OnlyExec] /\
  exists f, Execute_MysqlResults [OnlyExec] = Instantiated f.
Proof.
  destruct OnlyExec_only_with_Execute as (_ & Hmark & Hquery & Hexec).
  split; [|split].
  - apply Hmark. reflexivity.
  - apply (Hquery int_text (fun mysql_ query args => QueryAll int_text mysql_ query args)).
    reflexivity.
  - apply Hexec. reflexivity.
Defined.

(** ** Calls and the mutex *)

Lemma call_steps_QueryAll Out mysql_ query args :
  call_steps (CallQueryAll Out mysql_ query args) = QueryAll_steps mysql_ query args.
Proof. unfold call_steps. rewrite QueryAll_trace. reflexivity. Qed.

Lemma call_steps_Execute mysql_ query args :
  call_steps (CallExecute mysql_ query args) = Execute_steps mysql_ query args.
Proof. unfold call_steps. rewrite Execute_trace. reflexivity. Qed.

Lemma call_steps_lock_free c :
  Forall (fun e => e <> EvLock /\ e <> EvUnlock) (call_steps c).
Proof.
  destruct c as [Out mysql_ query args|mysql_ query args].
  - rewrite call_steps_QueryAll. unfold QueryAll_steps.
    constructor; [split; discriminate|].
    destruct (prepare_error mysql_); [constructor|].
    repeat (constructor; [split; discriminate|]).
    apply Forall_app. split; [|repeat constructor; discriminate].
    destruct (negb (bind_result_rc mysql_ =? 0)); [constructor|].
    constructor; [split; discriminate|].
    destruct (negb (execute_rc mysql_ =? 0)); [constructor|].
    apply Forall_replicate. split; discriminate.
  - rewrite call_steps_Execute. unfold Execute_steps.
    constructor; [split; discriminate|].
    destruct (prepare_error mysql_); repeat constructor; discriminate.
Qed.

Lemma interleave_lock_free schedule a b :
  Forall (fun e => e <> EvLock /\ e <> EvUnlock) a ->
  Forall (fun e => e <> EvLock /\ e <> EvUnlock) b ->
  Forall (fun p => p.2 <> EvLock /\ p.2 <> EvUnlock) (interleave schedule a b).
Proof.
  revert a b. induction schedule as [|t s IH]; intros a b Ha Hb; simpl.
  - apply Forall_app. split; apply Forall_fmap; assumption.
  - destruct t.
    + destruct Ha as [|e a' He Ha']; [apply Forall_fmap; assumption|].
      constructor; [exact He|]. apply IH; assumption.
    + destruct Hb as [|e b' He Hb']; [apply Forall_fmap; assumption|].
      constructor; [exact He|]. apply IH; assumption.
Qed.

Lemma mutex_admits_lock_free holder tr :
  Forall (fun p => p.2 <> EvLock /\ p.2 <> EvUnlock) tr ->
  mutex_admits holder tr = true.
Proof.
  induction 1 as [|[t e] tr [Hl Hu] _ IH]; simpl in *; [reflexivity|].
  destruct e; try exact IH; congruence.
Qed.

Lemma interleave_thread_a schedule a b :
  map snd (filter (fun p => p.1 = ThreadA) (interleave schedule a b)) = a.
Proof.
  assert (forall l : list event,
            map snd (filter (fun p => p.1 = ThreadA) (map (pair ThreadA) l)) = l) as Hsame.
  { induction l as [|e l IH]; [reflexivity|]. cbn [map].
    rewrite filter_cons_True by reflexivity. cbn [map snd]. f_equal. exact IH. }
  assert (forall l : list event,
            map snd (filter (fun p => p.1 = ThreadA) (map (pair ThreadB) l)) = []) as Hother.
  { induction l as [|e l IH]; [reflexivity|]. cbn [map].
    rewrite filter_cons_False by discriminate. exact IH. }
  revert a b. induction schedule as [|t s IH]; intros a b; cbn [interleave].
  - rewrite filter_app, map_app, Hsame, Hother. apply app_nil_r.
  - destruct t.
    + destruct a as [|e a']; [apply Hother|].
      rewrite filter_cons_True by reflexivity. cbn [map snd]. f_equal. apply IH.
    + destruct b as [|e b']; [apply Hsame|].
      rewrite filter_cons_False by discriminate. apply IH.
Qed.

Lemma interleave_thread_b schedule a b :
  map snd (filter (fun p => p.1 = ThreadB) (interleave schedule a b)) = b.
Proof.
  assert (forall l : list event,
            map snd (filter (fun p => p.1 = ThreadB) (map (pair ThreadB) l)) = l) as Hsame.
  { induction l as [|e l IH]; [reflexivity|]. cbn [map].
    rewrite filter_cons_True by reflexivity. cbn [map snd]. f_equal. exact IH. }
  assert (forall l : list event,
            map snd (filter (fun p => p.1 = ThreadB) (map (pair ThreadA) l)) = []) as Hother.
  { induction l as [|e l IH]; [reflexivity|]. cbn [map].
    rewrite filter_cons_False by discriminate. exact IH. }
  revert a b. induction schedule as [|t s IH]; intros a b; cbn [interleave].
  - rewrite filter_app, map_app, Hsame, Hother. reflexivity.
  - destruct t.
    + destruct a as [|e a']; [apply Hsame|].
      rewrite filter_cons_False by discriminate. apply IH.
    + destruct b as [|e b']; [apply Hother|].
      rewrite filter_cons_True by reflexivity. cbn [map snd]. f_equal. apply IH.
Qed.

(** C9, as stated, fails: an [Execute] and a [QueryAll] issued on the same
    connection by two threads can alternate step by step; the mutex admits
    that execution, and thread B binds its parameters before thread A has
    executed. *)
Lemma serialization_counterexample :
  let a := CallExecute insert_one "INSERT INTO t(a,b) VALUES (?,?)" insert_args in
  let b := CallQueryAll int_text select_a_b "SELECT a,b FROM t" [] in
  let tr := interleave [ThreadA; ThreadB; ThreadA; ThreadB; ThreadA; ThreadB]
              (call_steps a) (call_steps b) in
  take 5 tr = [(ThreadA, EvPrepare "INSERT INTO t(a,b) VALUES (?,?)");
               (ThreadB, EvPrepare "SELECT a,b FROM t");
               (ThreadA, EvBindParam 2);
               (ThreadB, EvBindParam 0);
               (ThreadA, EvExecute)] /\
  mutex_admits None tr = true /\
  serialized tr = false /\
  ~ fully_serialized a b.
Proof.
  simpl. split; [reflexivity|]. split; [reflexivity|]. split; [reflexivity|].
  intros H.
  specialize (H [ThreadA; ThreadB; ThreadA; ThreadB; ThreadA; ThreadB]).
  simpl in H. specialize (H eq_refl). vm_compute in H. discriminate.
Qed.

(** C9 (amended): no step of a [QueryAll] or an [Execute] acquires or
    releases [mysql_mutex].  Each call issues its own protocol steps in
    program order, and every interleaving of the steps of two calls is an
    execution the mutex admits: the executor does not serialize calls. *)
Theorem calls_take_no_lock (a b : call) (schedule : list thread) :
  let tr := interleave schedule (call_steps a) (call_steps b) in
  Forall (fun e => e <> EvLock /\ e <> EvUnlock) (call_steps a) /\
  mutex_admits None tr = true /\
  map snd (filter (fun p => p.1 = ThreadA) tr) = call_steps a /\
  map snd (filter (fun p => p.1 = ThreadB) tr) = call_steps b.
Proof.
  simpl. split; [apply call_steps_lock_free|]. split; [|split].
  - apply mutex_admits_lock_free, interleave_lock_free; apply call_steps_lock_free.
  - apply interleave_thread_a.
  - apply interleave_thread_b.
Qed.

(** * Further properties of the executor *)

(** ** The loop stops at the first signal *)

Lemma fetch_loop_after_no_data Out binds pre post m :
  fetch_loop Out binds (pre ++ FetchNoData :: post) m = fetch_loop Out binds pre m.
Proof.
  revert m. induction pre as [|r pre IH]; intros m.
  - reflexivity.
  - destruct r; simpl; unfold fetch_iteration, bind, SetResultTuple, gets, modify;
      simpl; rewrite ?IH; reflexivity.
Qed.

Lemma fetch_loop_after_failure_state Out binds pre post m :
  (fetch_loop Out binds (pre ++ FetchFailed :: post) m).2
  = (fetch_loop Out binds pre m).2.
Proof.
  revert m. induction pre as [|r pre IH]; intros m.
  - reflexivity.
  - destruct r; simpl; unfold fetch_iteration, bind, SetResultTuple, gets, modify;
      simpl; rewrite ?IH; reflexivity.
Qed.

Lemma FetchResults_eq Out stmt1 stmt2 binds m :
  (fetch_loop Out binds (fetch_replies (STMTPointer stmt1)) m).2
  = (fetch_loop Out binds (fetch_replies (STMTPointer stmt2)) m).2 ->
  FetchResults Out stmt1 binds m = FetchResults Out stmt2 binds m.
Proof.
  intros Hst.
  pose proof (FetchResults_returns Out stmt1 binds m) as H1.
  pose proof (FetchResults_returns Out stmt2 binds m) as H2.
  pose proof (FetchResults_state Out stmt1 binds m) as S1.
  pose proof (FetchResults_state Out stmt2 binds m) as S2.
  destruct (FetchResults Out stmt1 binds m) as [o1 m1].
  destruct (FetchResults Out stmt2 binds m) as [o2 m2].
  simpl in *. congruence.
Qed.

Lemma QueryAll_replies_ext Out s l1 l2 query args m :
  (forall binds m0,
     (fetch_loop Out binds l1 m0).2 = (fetch_loop Out binds l2 m0).2) ->
  QueryAll Out (with_fetch_replies l1 s) query args m
  = QueryAll Out (with_fetch_replies l2 s) query args m.
Proof.
  intros Hl. run_call.
  destruct (prepare_error s); simpl; [reflexivity|].
  destruct (bind_param_rc s =? 0); simpl;
    destruct (bind_result_rc s =? 0); simpl; try reflexivity;
    destruct (execute_rc s =? 0); simpl; try reflexivity;
    match goal with
    | |- context [FetchResults ?o ?s1 ?b ?m0] =>
        match goal with
        | |- context [FetchResults o ?s2 b m0] =>
            lazymatch s2 with
            | s1 => fail
            | _ => rewrite (FetchResults_eq o s1 s2 b m0) by apply Hl; reflexivity
            end
        end
    end.
Qed.

(** X1: the fetch loop stops at the first end-of-data or error signal.
    Answers the server would give after it are never asked for, and an
    error signal leaves the call exactly as end of data does: the same
    outcome, the same log and the same collections as if the answers had
    simply run out there. *)
Theorem QueryAll_stops_at_first_signal Out s query args m pre post :
  QueryAll Out (with_fetch_replies (pre ++ FetchNoData :: post) s) query args m
  = QueryAll Out (with_fetch_replies pre s) query args m /\
  QueryAll Out (with_fetch_replies (pre ++ FetchFailed :: post) s) query args m
  = QueryAll Out (with_fetch_replies pre s) query args m.
Proof.
  split; apply QueryAll_replies_ext; intros binds m0.
  - rewrite fetch_loop_after_no_data. reflexivity.
  - apply fetch_loop_after_failure_state.
Qed.

(** ** Rows and flags are appended together *)

Lemma fetch_loop_appends Out binds replies :
  forall m,
    exists rows flags,
      result_set (mysql_results (fetch_loop Out binds replies m).2)
      = result_set (mysql_results m) ++ rows /\
      null_flags (mysql_results (fetch_loop Out binds replies m).2)
      = null_flags (mysql_results m) ++ flags /\
      length rows = length (kept_rows replies) /\
      length flags = length (kept_rows replies) /\
      Forall (fun r => length r = length Out) rows.
Proof.
  induction replies as [|r rest IH]; intros m.
  - exists [], []. simpl. unfold fetch_iteration, bind. simpl.
    rewrite store_row_results, !app_nil_r. repeat split; constructor.
  - destruct r as [cols|cols| |].
    + simpl. unfold fetch_iteration, bind, SetResultTuple, gets, modify. simpl.
      match goal with
      | |- context [fetch_loop Out binds rest ?m0] =>
          destruct (IH m0) as (rows & flags & Hr & Hf & Hlr & Hlf & Har);
          rewrite Hr, Hf
      end.
      simpl. rewrite !store_row_results. simpl.
      eexists (_ :: rows), (_ :: flags).
      rewrite <- !app_assoc. simpl.
      split; [reflexivity|]. split; [reflexivity|].
      split; [lia|]. split; [lia|].
      constructor; [apply length_imap|exact Har].
    + simpl. unfold fetch_iteration, bind. simpl.
      match goal with
      | |- context [fetch_loop Out binds rest ?m0] =>
          destruct (IH m0) as (rows & flags & Hr & Hf & Hlr & Hlf & Har);
          rewrite Hr, Hf
      end.
      rewrite !store_row_results. simpl. exists rows, flags. auto.
    + exists [], []. simpl. unfold fetch_iteration, bind. simpl.
      rewrite store_row_results, !app_nil_r. repeat split; constructor.
    + exists [], []. simpl. unfold fetch_iteration, bind. simpl.
      rewrite store_row_results, !app_nil_r. repeat split; constructor.
Qed.

(** X2: [FetchResults] only appends.  Whatever the collections held on
    entry is still there, in place, on return, followed by one row and one
    flag sequence for every answer the loop kept; every appended row has
    one value per declared output type. *)
Theorem FetchResults_appends_only Out stmt binds m :
  exists rows flags,
    result_set (mysql_results (FetchResults Out stmt binds m).2)
    = result_set (mysql_results m) ++ rows /\
    null_flags (mysql_results (FetchResults Out stmt binds m).2)
    = null_flags (mysql_results m) ++ flags /\
    length rows = length (kept_rows (fetch_replies (STMTPointer stmt))) /\
    length flags = length (kept_rows (fetch_replies (STMTPointer stmt))) /\
    Forall (fun r => length r = length Out) rows.
Proof.
  rewrite FetchResults_state. apply fetch_loop_appends.
Qed.

(** X3: after every [QueryAll], returned or thrown, the result collection
    and the null-flag collection have the same number of entries. *)
Theorem QueryAll_collections_in_step Out mysql_ query args m :
  length (result_set (mysql_results (QueryAll Out mysql_ query args m).2))
  = length (null_flags (mysql_results (QueryAll Out mysql_ query args m).2)).
Proof.
  destruct (statement_runs_dec mysql_) as [Hruns|Hfail].
  - destruct (QueryAll_counts Out mysql_ query args m Hruns) as [-> ->]. reflexivity.
  - destruct (QueryAll_fails_empty Out mysql_ query args m Hfail) as [-> ->].
    reflexivity.
Qed.

(** ** Null flags are booleans *)

Lemma store_column_flags b c m :
  Forall is_flag (null_flag_buffer m) ->
  Forall is_flag (null_flag_buffer (store_column b c m)).
Proof.
  intros H. unfold store_column.
  assert (is_flag (if col_is_null c then 1 else 0)) as Hflag
    by (destruct (col_is_null c); [right|left]; reflexivity).
  destruct (is_null b), (col_is_null c), (buffer b), (length_ptr b); simpl;
    try exact H; apply Forall_insert; assumption.
Qed.

Lemma store_row_flags binds cols m :
  Forall is_flag (null_flag_buffer m) ->
  Forall is_flag (null_flag_buffer (store_row binds cols m)).
Proof.
  revert cols m. induction binds as [|b binds IH]; intros [|c cols] m H; simpl; trivial.
  apply IH, store_column_flags, H.
Qed.

Lemma fetch_loop_flags Out binds replies :
  forall m,
    Forall is_flag (null_flag_buffer m) ->
    Forall (Forall is_flag) (null_flags (mysql_results m)) ->
    Forall (Forall is_flag)
      (null_flags (mysql_results (fetch_loop Out binds replies m).2)).
Proof.
  induction replies as [|r rest IH]; intros m Hb Hall.
  - simpl. unfold fetch_iteration, bind. simpl. rewrite store_row_results. exact Hall.
  - destruct r; simpl; unfold fetch_iteration, bind, SetResultTuple, gets, modify; simpl.
    + apply IH; simpl.
      * apply store_row_flags. exact Hb.
      * rewrite store_row_results. simpl. apply Forall_app. split; [exact Hall|].
        constructor; [|constructor]. apply store_row_flags. exact Hb.
    + apply IH.
      * apply store_row_flags. exact Hb.
      * rewrite store_row_results. exact Hall.
    + rewrite store_row_results. exact Hall.
    + rewrite store_row_results. exact Hall.
Qed.

(** X4: every null flag [QueryAll] hands back is 0 or 1, for every
    statement and every declared output-type list: the flag buffer starts
    zeroed and a fetch stores nothing else in it. *)
Theorem QueryAll_flags_are_booleans Out mysql_ query args m :
  Forall (Forall is_flag)
    (null_flags (mysql_results (QueryAll Out mysql_ query args m).2)).
Proof.
  destruct (statement_runs_dec mysql_) as [Hruns|Hfail].
  - rewrite QueryAll_reaches_loop by exact Hruns. simpl.
    apply fetch_loop_flags.
    + unfold loop_entry. simpl. apply Forall_replicate. left. reflexivity.
    + unfold loop_entry. simpl. constructor.
  - destruct (QueryAll_fails_empty Out mysql_ query args m Hfail) as [_ ->].
    constructor.
Qed.

(** ** Order of the protocol operations *)

Lemma fetches_issued_count replies :
  fetches_issued replies = S (length (fetched_rows replies)).
Proof.
  induction replies as [|r rest IH]; [reflexivity|].
  destruct r; simpl; rewrite ?IH; reflexivity.
Qed.

(** X5: when prepare, output binding and execute succeed, a [QueryAll]
    issues exactly: prepare; the parameter bind, with one descriptor per
    argument; the result bind, with one descriptor per field; execute; one
    fetch for every row the server delivers and one more for the signal
    that ends the loop; and the close of the statement, last. *)
Theorem QueryAll_protocol_order Out mysql_ query args m :
  statement_runs mysql_ ->
  log (QueryAll Out mysql_ query args m).2
  = log m
    ++ [EvPrepare query; EvBindParam (length args);
        EvBindResult (field_count mysql_); EvExecute]
    ++ replicate (S (length (fetched_rows (fetch_replies mysql_)))) EvFetch
    ++ [EvClose].
Proof.
  intros (Hp & Hb & He). rewrite QueryAll_trace. unfold QueryAll_steps.
  rewrite Hp, Hb, He, fetches_issued_count. reflexivity.
Qed.

Lemma QueryAll_protocol_order_witness :
  log (QueryAll int_text select_a_b "SELECT a,b FROM t" []
         (machine_init MysqlResults_new)).2
  = [EvPrepare "SELECT a,b FROM t"; EvBindParam 0; EvBindResult 2; EvExecute;
     EvFetch; EvFetch; EvFetch; EvClose].
Proof.
  apply (QueryAll_protocol_order int_text select_a_b "SELECT a,b FROM t" []
           (machine_init MysqlResults_new)).
  repeat split.
Defined.

(** X6: an [Execute] never binds output descriptors and never fetches.
    When the server rejects the query it issues the prepare alone; when
    the statement is prepared it issues prepare, the parameter bind with
    one descriptor per argument, execute and close, in this order,
    whatever execute answers. *)
Theorem Execute_never_fetches mysql_ query args m :
  exists steps,
    log (Execute mysql_ query args m).2 = log m ++ steps /\
    (EvFetch ∉ steps) /\
    (forall n, EvBindResult n ∉ steps) /\
    steps = match prepare_error mysql_ with
            | Some _ => [EvPrepare query]
            | None => [EvPrepare query; EvBindParam (length args); EvExecute; EvClose]
            end.
Proof.
  exists (Execute_steps mysql_ query args).
  split; [apply Execute_trace|].
  unfold Execute_steps. destruct (prepare_error mysql_).
  - split; [|split; [|reflexivity]].
    + intros H. apply list_elem_of_In in H. simpl in H. intuition discriminate.
    + intros n H. apply list_elem_of_In in H. simpl in H. intuition discriminate.
  - split; [|split; [|reflexivity]].
    + intros H. apply list_elem_of_In in H. simpl in H. intuition discriminate.
    + intros n H. apply list_elem_of_In in H. simpl in H. intuition discriminate.
Qed.

(** X7: a [QueryAll] that leaves by an exception has fetched nothing and
    leaves both collections empty: they were cleared before the statement
    was prepared, and the loop is entered only after execute succeeded. *)
Theorem QueryAll_throw_leaves_empty Out mysql_ query args m e :
  (QueryAll Out mysql_ query args m).1 = Thrown e ->
  result_set (mysql_results (QueryAll Out mysql_ query args m).2) = [] /\
  null_flags (mysql_results (QueryAll Out mysql_ query args m).2) = [] /\
  exists steps,
    log (QueryAll Out mysql_ query args m).2 = log m ++ steps /\ (EvFetch ∉ steps).
Proof.
  intros Hthrown. rewrite QueryAll_returns in Hthrown.
  assert (QueryAll_outcome mysql_ <> Returned tt) as Hfail by congruence.
  destruct (QueryAll_fails_empty Out mysql_ query args m Hfail) as [Hr Hf].
  split; [exact Hr|]. split; [exact Hf|].
  exists (QueryAll_steps mysql_ query args). split; [apply QueryAll_trace|].
  unfold QueryAll_outcome in Hfail. unfold QueryAll_steps.
  destruct (prepare_error mysql_).
  - intros H. apply list_elem_of_In in H. simpl in H. intuition discriminate.
  - destruct (negb (bind_result_rc mysql_ =? 0)).
    + intros H. apply list_elem_of_In in H. simpl in H. intuition discriminate.
    + destruct (negb (execute_rc mysql_ =? 0)); simpl in *; [|congruence].
      intros H. apply list_elem_of_In in H. simpl in H. intuition discriminate.
Qed.

Lemma QueryAll_throw_leaves_empty_witness :
  let rejected :=
    {| prepare_error := None; field_count := 2; bind_param_rc := 0;
       bind_result_rc := 0; execute_rc := 1;
       fetch_replies := fetch_replies select_a_b;
       stmt_error := "Table 't' doesn't exist"; server_affected_rows := 0 |} in
  let stale := set_result_set [[Value Text [x7a]]] (set_null_flags [[0]] MysqlResults_new) in
  let res := QueryAll int_text rejected "SELECT a,b FROM t" [] (machine_init stale) in
  res.1 = Thrown {| what := "Table 't' doesn't exist" |} /\
  result_set (mysql_results res.2) = [] /\ null_flags (mysql_results res.2) = [].
Proof.
  simpl.
  destruct (QueryAll_throw_leaves_empty int_text
              {| prepare_error := None; field_count := 2; bind_param_rc := 0;
                 bind_result_rc := 0; execute_rc := 1;
                 fetch_replies := fetch_replies select_a_b;
                 stmt_error := "Table 't' doesn't exist"; server_affected_rows := 0 |}
              "SELECT a,b FROM t" []
              (machine_init (set_result_set [[Value Text [x7a]]]
                               (set_null_flags [[0]] MysqlResults_new)))
              {| what := "Table 't' doesn't exist" |})
    as (Hr & Hf & _).
  - reflexivity.
  - split; [reflexivity|]. split; assumption.
Defined.

(** ** The affected-row count through [int] *)

Lemma int_faithful c :
  0 <= c < 2 ^ 64 -> (int (size_t c) = c <-> c < 2 ^ 31).
Proof.
  unfold int, size_t.
  change (2 ^ 64) with 18446744073709551616.
  change (2 ^ 32) with 4294967296. change (2 ^ 31) with 2147483648.
  intros Hc. rewrite (Z.mod_small c) by lia.
  pose proof (Z.mod_pos_bound (c + 2147483648) 4294967296 ltac:(lia)) as Hb.
  split; intros H.
  - lia.
  - rewrite Z.mod_small by lia. lia.
Qed.

Lemma size_t_int_faithful c :
  0 <= c < 2 ^ 64 ->
  (size_t (int (size_t c)) = c <-> c < 2 ^ 31 \/ 2 ^ 64 - 2 ^ 31 <= c).
Proof.
  unfold int, size_t.
  change (2 ^ 64) with 18446744073709551616.
  change (2 ^ 32) with 4294967296. change (2 ^ 31) with 2147483648.
  intros Hc. rewrite (Z.mod_small c) by lia.
  Z.div_mod_to_equations. lia.
Qed.

(** X8: when the statement is prepared and executed, [Execute] returns
    the count [mysql_affected_rows] reports exactly when that count is
    below [2^31]; the [MysqlResults] overload stores it in [affected_rows]
    exactly when it is below [2^31] or at least [2^64 - 2^31]. *)
Theorem Execute_count_faithful_range mysql_ query args m :
  prepare_error mysql_ = None -> execute_rc mysql_ = 0 ->
  ((Execute mysql_ query args m).1 = Returned (mysql_affected_rows mysql_)
   <-> mysql_affected_rows mysql_ < 2 ^ 31) /\
  (exists f, Execute_MysqlResults [OnlyExec] = Instantiated f /\
     (affected_rows (mysql_results (f mysql_ query args m).2)
      = mysql_affected_rows mysql_
      <-> mysql_affected_rows mysql_ < 2 ^ 31
          \/ 2 ^ 64 - 2 ^ 31 <= mysql_affected_rows mysql_)).
Proof.
  intros Hp He.
  assert (0 <= mysql_affected_rows mysql_ < 2 ^ 64) as Hrange.
  { unfold mysql_affected_rows, size_t. apply Z.mod_pos_bound. lia. }
  assert ((Execute mysql_ query args m).1
          = Returned (int (size_t (mysql_affected_rows mysql_)))) as Hret.
  { rewrite Execute_returns. unfold Execute_outcome. rewrite Hp, He. simpl.
    unfold mysql_affected_rows, size_t. rewrite Z.mod_mod by lia. reflexivity. }
  split.
  - rewrite Hret. rewrite <- (int_faithful _ Hrange). split.
    + intros H. injection H as H. exact H.
    + intros H. f_equal. exact H.
  - eexists. split; [reflexivity|]. simpl. unfold bind, modify.
    destruct (Execute mysql_ query args m) as [[n|e] m'] eqn:Hex; simpl in *;
      [|discriminate].
    injection Hret as ->.
    apply (size_t_int_faithful _ Hrange).
Qed.

Lemma Execute_count_faithful_range_witness :
  (Execute insert_one "INSERT INTO t(a,b) VALUES (?,?)" insert_args
     (machine_init MysqlResults_new)).1 = Returned 1.
Proof.
  destruct (Execute_count_faithful_range insert_one "INSERT INTO t(a,b) VALUES (?,?)"
              insert_args (machine_init MysqlResults_new)) as [[_ H] _].
  - reflexivity.
  - reflexivity.
  - apply H. reflexivity.
Defined.

(** X9: the [MysqlResults] overload of [Execute] writes [affected_rows]
    only when [Execute] returns.  When the call leaves by an exception the
    exception reaches the caller and the object is left as it was, with
    the [affected_rows] of an earlier call still in it. *)
Theorem Execute_failure_keeps_results mysql_ query args m e :
  (Execute mysql_ query args m).1 = Thrown e ->
  exists f, Execute_MysqlResults [OnlyExec] = Instantiated f /\
    (f mysql_ query args m).1 = Thrown e /\
    mysql_results (f mysql_ query args m).2 = mysql_results m.
Proof.
  intros Hthrown. eexists. split; [reflexivity|]. simpl. unfold bind, modify.
  pose proof (Execute_frame mysql_ query args m) as Hfr.
  destruct (Execute mysql_ query args m) as [[n|e'] m']; simpl in *.
  - discriminate.
  - injection Hthrown as ->. split; [reflexivity|exact Hfr].
Qed.

Lemma Execute_failure_keeps_results_witness :
  let rejected :=
    {| prepare_error := Some "You have an error in your SQL syntax"; field_count := 0;
       bind_param_rc := 0; bind_result_rc := 0; execute_rc := 0; fetch_replies := [];
       stmt_error := ""; server_affected_rows := 0 |} in
  let before := set_affected_rows 7 MysqlResults_new in
  exists f, Execute_MysqlResults [OnlyExec] = Instantiated f /\
    (f rejected "INSERT INTO" [] (machine_init before)).1
    = Thrown {| what := "You have an error in your SQL syntax" |} /\
    affected_rows (mysql_results (f rejected "INSERT INTO" [] (machine_init before)).2) = 7.
Proof.
  simpl.
  destruct (Execute_failure_keeps_results
              {| prepare_error := Some "You have an error in your SQL syntax";
                 field_count := 0; bind_param_rc := 0; bind_result_rc := 0;
                 execute_rc := 0; fetch_replies := []; stmt_error := "";
                 server_affected_rows := 0 |}
              "INSERT INTO" [] (machine_init (set_affected_rows 7 MysqlResults_new))
              {| what := "You have an error in your SQL syntax" |})
    as (f & Hf & Ho & Hr).
  - reflexivity.
  - exists f. split; [exact Hf|]. split; [exact Ho|]. rewrite Hr. reflexivity.
Defined.

(** ** One call after another *)

Lemma store_column_agree b c m1 m2 :
  agree_but_log m1 m2 -> agree_but_log (store_column b c m1) (store_column b c m2).
Proof.
  intros (Hb & Ho & Hl & Hn & Hr). unfold store_column, agree_but_log.
  destruct (is_null b), (col_is_null c), (buffer b), (length_ptr b); simpl;
    rewrite ?Hb, ?Ho, ?Hl, ?Hn, ?Hr; repeat split; reflexivity.
Qed.

Lemma store_row_agree binds cols m1 m2 :
  agree_but_log m1 m2 -> agree_but_log (store_row binds cols m1) (store_row binds cols m2).
Proof.
  revert cols m1 m2.
  induction binds as [|b binds IH]; intros [|c cols] m1 m2 H; simpl; trivial.
  apply IH, store_column_agree, H.
Qed.

Lemma fetch_loop_agree Out binds replies :
  forall m1 m2,
    agree_but_log m1 m2 ->
    agree_but_log (fetch_loop Out binds replies m1).2 (fetch_loop Out binds replies m2).2.
Proof.
  assert (forall r m1 m2, agree_but_log m1 m2 ->
            agree_but_log (mysql_stmt_fetch r m1).2 (mysql_stmt_fetch r m2).2) as Hfetch.
  { intros r m1 m2 H. unfold mysql_stmt_fetch. simpl.
    destruct H as (Hb & Ho & Hl & Hn & Hr). rewrite Hb.
    apply store_row_agree. repeat split; assumption. }
  induction replies as [|r rest IH]; intros m1 m2 H.
  - apply (Hfetch FetchNoData), H.
  - destruct r as [cols|cols| |].
    + simpl. unfold fetch_iteration, bind, SetResultTuple, gets, modify.
      change ((mysql_stmt_fetch (FetchedRow cols) m1).1) with (Returned (A := Z) 0).
      change ((mysql_stmt_fetch (FetchedRow cols) m2).1) with (Returned (A := Z) 0).
      pose proof (Hfetch (FetchedRow cols) m1 m2 H) as Hs.
      destruct (mysql_stmt_fetch (FetchedRow cols) m1) as [o1 s1] eqn:E1.
      destruct (mysql_stmt_fetch (FetchedRow cols) m2) as [o2 s2] eqn:E2.
      unfold mysql_stmt_fetch in E1, E2. injection E1 as <- <-. injection E2 as <- <-.
      simpl in *. apply IH.
      destruct Hs as (Hb & Ho & Hl & Hn & Hr).
      unfold agree_but_log, emplace_back_null_flags, push_back_result,
        decode_column, read_is_null, read_buffer.
      simpl. rewrite Hb, Ho, Hl, Hn, Hr. repeat split; reflexivity.
    + simpl. unfold fetch_iteration, bind. simpl. apply IH.
      apply (Hfetch (FetchedTruncated cols)), H.
    + apply (Hfetch FetchNoData), H.
    + apply (Hfetch FetchFailed), H.
Qed.

Lemma QueryAll_results_from Out mysql_ query args m1 m2 :
  error_message (mysql_results m1) = error_message (mysql_results m2) ->
  affected_rows (mysql_results m1) = affected_rows (mysql_results m2) ->
  mysql_results (QueryAll Out mysql_ query args m1).2
  = mysql_results (QueryAll Out mysql_ query args m2).2.
Proof.
  intros He Ha.
  destruct (statement_runs_dec mysql_) as [Hruns|Hfail].
  - rewrite !QueryAll_reaches_loop by exact Hruns. simpl.
    apply (fetch_loop_agree Out _ (fetch_replies mysql_)
             (loop_entry Out mysql_ query args m1) (loop_entry Out mysql_ query args m2)).
    unfold agree_but_log, loop_entry, set_null_flags, set_result_set. simpl.
    rewrite He, Ha. repeat split; reflexivity.
  - destruct (QueryAll_fails_empty Out mysql_ query args m1 Hfail) as [Hr1 Hf1].
    destruct (QueryAll_fails_empty Out mysql_ query args m2 Hfail) as [Hr2 Hf2].
    pose proof (QueryAll_frame error_message (fun _ _ => eq_refl) (fun _ _ => eq_refl)
                  Out mysql_ query args m1) as He1.
    pose proof (QueryAll_frame error_message (fun _ _ => eq_refl) (fun _ _ => eq_refl)
                  Out mysql_ query args m2) as He2.
    pose proof (QueryAll_frame affected_rows (fun _ _ => eq_refl) (fun _ _ => eq_refl)
                  Out mysql_ query args m1) as Ha1.
    pose proof (QueryAll_frame affected_rows (fun _ _ => eq_refl) (fun _ _ => eq_refl)
                  Out mysql_ query args m2) as Ha2.
    simpl in *.
    destruct (mysql_results (QueryAll Out mysql_ query args m1).2).
    destruct (mysql_results (QueryAll Out mysql_ query args m2).2).
    simpl in *. congruence.
Qed.

(** X10: calls do not leak into one another through the result object or
    the bind buffers.  A [QueryAll] run after another [QueryAll], or after
    an [Execute], leaves by the same outcome and leaves the same result
    object as the same call run on its own. *)
Theorem QueryAll_after_other_calls Out mysql_ query args m :
  (forall Out0 mysql0 query0 args0,
     let m0 := (QueryAll Out0 mysql0 query0 args0 m).2 in
     (QueryAll Out mysql_ query args m0).1 = (QueryAll Out mysql_ query args m).1 /\
     mysql_results (QueryAll Out mysql_ query args m0).2
     = mysql_results (QueryAll Out mysql_ query args m).2) /\
  (forall mysql0 query0 args0,
     let m0 := (Execute mysql0 query0 args0 m).2 in
     (QueryAll Out mysql_ query args m0).1 = (QueryAll Out mysql_ query args m).1 /\
     mysql_results (QueryAll Out mysql_ query args m0).2
     = mysql_results (QueryAll Out mysql_ query args m).2).
Proof.
  split.
  - intros Out0 mysql0 query0 args0. simpl. split.
    + rewrite !QueryAll_returns. reflexivity.
    + apply QueryAll_results_from.
      * apply (QueryAll_frame error_message); reflexivity.
      * apply (QueryAll_frame affected_rows); reflexivity.
  - intros mysql0 query0 args0. simpl. split.
    + rewrite !QueryAll_returns. reflexivity.
    + apply QueryAll_results_from; rewrite (Execute_frame mysql0 query0 args0 m);
        reflexivity.
Qed.
